(** * LLM-Microservice-Demo: the serialized inference gateway and its chat client

    A shallow embedding of
      - [app/core/dependencies.py]  (get_llm_instance, get_llm_lock),
      - [app/api/v1/endpoints.py]   (health_check_status, create_chat_completion),
      - [app/main.py]               (lifespan),
      - [app/client_chat.py]        (LLMChatClient),
    followed by the properties of the gateway's admission layer and of the
    client's history bookkeeping.

    Python objects are modelled by [pyval]; [app.state] is a finite map from
    attribute names to attributes; exceptions are an explicit sum; the
    coroutine of the completion handler is a small-step machine whose steps
    are the stretches of code between two suspension points. *)

From Stdlib Require Import ZArith QArith Ascii String.
From stdpp Require Import base gmap strings list pretty.

Set Warnings "-register-all".
Open Scope Z_scope.

(** ** Python values and exceptions *)

Module Py.

(** The JSON-like objects that travel between engine, gateway and client.
    Floats are never computed with; they are kept as rationals. *)
Inductive pyval :=
| PNone
| PBool (b : bool)
| PInt (n : Z)
| PFloat (x : Q)
| PStr (s : string)
| PList (l : list pyval)
| PDict (d : gmap string pyval).

(** The exception classes the sources raise or catch.  [CancelledError] and
    [KeyboardInterrupt] are the ones that do not derive from [Exception]. *)
Inductive exn :=
| HTTPException (status_code : Z) (detail : string)
| KeyError
| IndexError
| TypeError
| AttributeError
| ValidationError
| HTTPError (status_code : Z)
| RequestException
| JSONDecodeError
| RuntimeError (msg : string)
| CancelledError
| KeyboardInterrupt.

(** [isinstance(e, Exception)] *)
Definition is_Exception (e : exn) : bool :=
  match e with CancelledError | KeyboardInterrupt => false | _ => true end.

(** [isinstance(e, HTTPException)] *)
Definition is_HTTPException (e : exn) : bool :=
  match e with HTTPException _ _ => true | _ => false end.

(** [isinstance(e, (KeyError, IndexError, TypeError))] *)
Definition is_lookup_error (e : exn) : bool :=
  match e with KeyError | IndexError | TypeError => true | _ => false end.

(** Subscript keys occurring in the sources: string literals and integers. *)
Inductive key := KStr (s : string) | KInt (i : Z).

(** Python's sequence index normalisation: a negative index counts from the
    end; out of range raises [IndexError]. *)
Definition seq_index {A} (l : list A) (i : Z) : exn + A :=
  let j := if i <? 0 then i + Z.of_nat (length l) else i in
  if j <? 0 then inl IndexError
  else match l !! Z.to_nat j with
       | Some x => inr x
       | None => inl IndexError
       end.

Fixpoint chars (s : string) : list string :=
  match s with
  | EmptyString => []
  | String c r => String c EmptyString :: chars r
  end.

(** [v[k]] *)
Definition getitem (v : pyval) (k : key) : exn + pyval :=
  match v, k with
  | PDict d, KStr s =>
      match d !! s with Some x => inr x | None => inl KeyError end
  | PDict _, KInt _ => inl KeyError
  | PList l, KInt i => seq_index l i
  | PList _, KStr _ => inl TypeError
  | PStr s, KInt i =>
      match seq_index (chars s) i with
      | inr c => inr (PStr c)
      | inl e => inl e
      end
  | PStr _, KStr _ => inl TypeError
  | _, _ => inl TypeError
  end.

(** [v.get(k, dflt)]: only dicts have the method. *)
Definition dict_get (v : pyval) (k : string) (dflt : pyval) : exn + pyval :=
  match v with
  | PDict d => inr (default dflt (d !! k))
  | _ => inl AttributeError
  end.

(** [isinstance(v, dict)] *)
Definition is_dict (v : pyval) : bool :=
  match v with PDict _ => true | _ => false end.

(** [os.path.basename] on POSIX paths: what follows the last slash. *)
Fixpoint basename_from (acc p : string) : string :=
  match p with
  | EmptyString => acc
  | String c r =>
      if Ascii.eqb c "/"%char then basename_from EmptyString r
      else basename_from (acc +:+ String c EmptyString) r
  end.

Definition basename (p : string) : string := basename_from EmptyString p.

(** Truthiness of a string: non-empty. *)
Definition str_truthy (s : string) : bool :=
  match s with EmptyString => false | _ => true end.

End Py.

Export Py.

(** The keyword arguments frozen by [functools.partial] around the engine's
    [create_chat_completion]. *)
Record blocking_task := {
  kw_messages : list pyval;
  kw_temperature : Q;
  kw_max_tokens : Z;
  kw_top_p : Q;
  kw_stop : option (list string);
}.

(** ** Logging and observable events *)

Inductive level := DEBUG | INFO | WARNING | ERROR | EXCEPTION.

(** What a run leaves behind: log records (level and the constant part of
    the message; interpolated values are left out of the recorded text),
    operations on the lock, and submissions of the blocking engine call. *)
Inductive event :=
| Log (lvl : level) (msg : string)
| LockAcquire
| LockRelease
| EngineCall (call : blocking_task).

Definition is_acquire (e : event) : bool :=
  match e with LockAcquire => true | _ => false end.

Definition is_release (e : event) : bool :=
  match e with LockRelease => true | _ => false end.

Definition is_engine_call (e : event) : bool :=
  match e with EngineCall _ => true | _ => false end.

Definition is_failure_log (e : event) : bool :=
  match e with Log ERROR _ | Log EXCEPTION _ => true | _ => false end.

(** Number of events of a kind in a trace. *)
Definition count_events (p : event → bool) (tr : list event) : nat :=
  length (filter (λ e, p e = true) tr).

(** ** Computations that log and may raise *)

(** A stretch of Python code without suspension point: the log records it
    emits, in order, and either the raised exception or the value. *)
Definition M (A : Type) : Type := list event * (exn + A).

Global Instance M_ret : MRet M := λ A a, ([], inr a).

Global Instance M_bind : MBind M := λ A B f m,
  match m with
  | (tr, inl x) => (tr, inl x)
  | (tr, inr a) => let '(tr', r) := f a in (tr ++ tr', r)
  end.

Definition raise {A} (e : exn) : M A := ([], inl e).

Definition logger (lvl : level) (msg : string) : M unit := ([Log lvl msg], inr ()).

Definition lift {A} (x : exn + A) : M A := ([], x).

(** [try: m  except <all>: h e]; the handler decides what to re-raise. *)
Definition try_except {A} (m : M A) (h : exn → M A) : M A :=
  match m with
  | (tr, inl x) => let '(tr', r) := h x in (tr ++ tr', r)
  | (tr, inr a) => (tr, inr a)
  end.

(** ** The wire schemas *)

Module Schemas.

(** Modelled from the spec: [core/schemas.py] is not among the sources.  The
    request carries an ordered sequence of (role, content) messages and the
    generation parameters temperature, max_tokens, top_p and optional stop
    sequences; the two real-valued parameters are only passed through, and
    are kept as rationals. *)
Record ChatMessageInput := {
  role : string;
  content : string;
}.

Record ChatCompletionRequest := {
  messages : list ChatMessageInput;
  temperature : Q;
  max_tokens : Z;
  top_p : Q;
  stop : option (list string);
}.

(** [message.model_dump()] *)
Definition model_dump (m : ChatMessageInput) : pyval :=
  PDict {[ "role" := PStr (role m); "content" := PStr (content m) ]}.

(** Modelled from the spec: the response contract of [core/schemas.py],
    {id, created, model, choices: [{index, message: {role, content},
    finish_reason}]}, with textual fields accepting strings, [created] an
    integer, and any other value refused with a validation error. *)
Record ChatMessageOutput := {
  out_role : string;
  out_content : string;
}.

Record ChatCompletionChoice := {
  index : Z;
  message : ChatMessageOutput;
  finish_reason : string;
}.

Record ChatCompletionResponse := {
  id : string;
  created : Z;
  model : string;
  choices : list ChatCompletionChoice;
}.

Definition as_str (v : pyval) : exn + string :=
  match v with PStr s => inr s | _ => inl ValidationError end.

Definition as_int (v : pyval) : exn + Z :=
  match v with PInt n => inr n | _ => inl ValidationError end.

Definition new_ChatMessageOutput (role content : pyval) : M ChatMessageOutput :=
  r ← lift (as_str role);
  c ← lift (as_str content);
  mret {| out_role := r; out_content := c |}.

Definition new_ChatCompletionChoice (index : Z) (message : ChatMessageOutput)
    (finish_reason : pyval) : M ChatCompletionChoice :=
  f ← lift (as_str finish_reason);
  mret {| index := index; message := message; finish_reason := f |}.

Definition new_ChatCompletionResponse (id created : pyval) (model : string)
    (choices : list ChatCompletionChoice) : M ChatCompletionResponse :=
  i ← lift (as_str id);
  c ← lift (as_int created);
  mret {| id := i; created := c; model := model; choices := choices |}.

End Schemas.

Export Schemas.

(** ** Process configuration, engine and application state *)

(** [core/config.py] together with the two facts about the outside world the
    gateway consults: whether a path exists and what the clock shows. *)
Record env := {
  MODEL_PATH : string;
  N_GPU_LAYERS : Z;
  N_CTX : Z;
  N_THREADS : Z;
  VERBOSE_LLAMA : bool;
  path_exists : string → bool;
  time_now : Z;
}.

(** A loaded engine, identified by the arguments it was constructed with. *)
Record Llama := {
  model_path : string;
  n_gpu_layers : Z;
  n_ctx : Z;
  n_threads : Z;
  verbose : bool;
}.

(** The [asyncio.Lock] object created by the lifespan. *)
Inductive Lock := TheLock.

(** [app.state].  An attribute is missing ([None]), set to Python's None
    ([Some None]) or set to an object. *)
Record app_state := {
  llm : option (option Llama);
  llm_lock : option (option Lock);
}.

(** The process: [app.state], the [locked] flag of the lock object, and the
    events so far. *)
Record world := {
  state : app_state;
  locked : bool;
  trace : list event;
}.

Definition emit (evs : list event) (w : world) : world :=
  {| state := state w; locked := locked w; trace := trace w ++ evs |}.

Definition set_locked (b : bool) (w : world) : world :=
  {| state := state w; locked := b; trace := trace w |}.

Definition set_state (s : app_state) (w : world) : world :=
  {| state := s; locked := locked w; trace := trace w |}.

(** [hasattr(app.state, "llm") and app.state.llm is not None] *)
Definition llm_available (s : app_state) : bool :=
  match llm s with Some (Some _) => true | _ => false end.

(** [hasattr(app.state, "llm_lock") and app.state.llm_lock is not None] *)
Definition lock_available (s : app_state) : bool :=
  match llm_lock s with Some (Some _) => true | _ => false end.

(** ** [core/dependencies.py] *)

Definition get_llm_instance (s : app_state) : M Llama :=
  match llm s with
  | Some (Some l) => mret l
  | _ =>
      logger ERROR "LLM instance not found in application state. It might not have loaded correctly.";;
      raise (HTTPException 503 "LLM model is not loaded or unavailable. Check /health endpoint.")
  end.

Definition get_llm_lock (s : app_state) : M Lock :=
  match llm_lock s with
  | Some (Some k) => mret k
  | _ =>
      logger ERROR "LLM lock not found in application state. LLM likely not loaded.";;
      raise (HTTPException 503 "LLM lock is unavailable. Service may be initializing or LLM failed to load.")
  end.

(** ** [main.py]: lifespan *)

Section Lifespan.

Variable e : env.

(** What the [Llama] constructor does on this machine: [Some x] when it
    raises [x], [None] when it returns the instance. *)
Variable llama_raises : option exn.

Definition Llama_init : M Llama :=
  match llama_raises with
  | Some x => raise x
  | None =>
      mret {| model_path := MODEL_PATH e; n_gpu_layers := N_GPU_LAYERS e;
              n_ctx := N_CTX e; n_threads := N_THREADS e;
              verbose := VERBOSE_LLAMA e |}
  end.

(** The part of [lifespan] that computes [llm_instance] (lines 34-66). *)
Definition load_llm_instance : M (option Llama) :=
  logger INFO "Application Startup";;
  logger INFO "Attempting to load LLM.";;
  logger INFO "Configuration:";;
  logger INFO "  MODEL_PATH: ";;
  logger INFO "  N_GPU_LAYERS: ";;
  logger INFO "  N_CTX: ";;
  logger INFO "  N_THREADS: ";;
  logger INFO "  VERBOSE_LLAMA: ";;
  if negb (path_exists e (MODEL_PATH e)) then
    logger ERROR "Model file not found. LLM will not be available.";;
    mret None
  else
    logger INFO "Model file found. Initializing Llama model...";;
    try_except
      (inst ← Llama_init;
       logger INFO "LLM loaded successfully.";;
       logger INFO "Model Name: ";;
       mret (Some inst))
      (λ x, if is_Exception x
            then logger EXCEPTION "Failed to load LLM. LLM will not be available.";;
                 mret None
            else raise x).

(** The code before [yield].  The result is the world in which requests are
    served, or the exception that escapes the startup. *)
Definition lifespan_startup (w : world) : world * option exn :=
  let r := load_llm_instance in
  let w1 := emit r.1 w in
  match r.2 with
  | inl x => (w1, Some x)
  | inr llm_instance =>
      let w2 :=
        match llm_instance with
        | Some _ =>
            emit [Log INFO "LLM Lock initialized."]
              (set_locked false
                 (set_state {| llm := Some llm_instance; llm_lock := Some (Some TheLock) |} w1))
        | None =>
            emit [Log INFO "LLM Lock not initialized as LLM failed to load or was not found."]
              (set_state {| llm := Some llm_instance; llm_lock := Some None |} w1)
        end in
      (emit [Log INFO "Application startup complete. Model loading is done."] w2, None)
  end.

(** The code after [yield]. *)
Definition lifespan_shutdown (w : world) : world :=
  let w1 := emit [Log INFO "Application Shutdown Sequence";
                  Log INFO "Cleaning up LLM instance..."] w in
  let w2 :=
    if llm_available (state w1) then
      emit [Log INFO "LLM instance reference removed from app.state."]
        (set_state {| llm := None; llm_lock := llm_lock (state w1) |} w1)
    else
      emit [Log INFO "No LLM instance was loaded or it was already cleaned up."] w1 in
  emit [Log INFO "Shutdown complete."] w2.

(** ** [api/v1/endpoints.py]: health *)

Definition health_check_status (w : world) : world * pyval :=
  let w0 := emit [Log DEBUG "Health check endpoint called."] w in
  let llm_instance_available := llm_available (state w0) in
  let model_name_display :=
    if llm_instance_available && str_truthy (MODEL_PATH e) && path_exists e (MODEL_PATH e)
    then basename (MODEL_PATH e)
    else if str_truthy (MODEL_PATH e) && negb (path_exists e (MODEL_PATH e))
    then basename (MODEL_PATH e) +:+ " (file not found)"
    else "N/A" in
  if llm_instance_available then
    (emit [Log INFO "Health check: OK - Model loaded."] w0,
     PDict {[ "status" := PStr "ok";
              "model_loaded" := PBool true;
              "model_name" := PStr model_name_display ]})
  else
    (emit [Log WARNING "Health check: WARNING - Model not loaded."] w0,
     PDict {[ "status" := PStr "warning";
              "model_loaded" := PBool false;
              "message" := PStr "LLM not loaded or failed to load. Check server logs.";
              "configured_model_path" := PStr (MODEL_PATH e) ]}).

End Lifespan.

(** ** [api/v1/endpoints.py]: the completion handler *)

(** How a request ends inside the handler: it returns a value (Python's None
    when the function falls off its end) or an exception leaves it. *)
Inductive outcome :=
| Returned (r : option ChatCompletionResponse)
| Raised (x : exn).

(** The suspension points of one request, with the local variables alive
    there.  [Arrived]: the body is parsed and the dependencies are about to
    be resolved.  [Received]: the handler body starts.  [Validated]: waiting
    at [async with llm_lock].  [GateAcquired]: inside the critical section.
    [Invoking]: awaiting the executor running the blocking engine call. *)
Inductive pc :=
| Arrived
| Received (llm : Llama)
| Validated (llm : Llama) (messages_for_llm : list pyval)
| GateAcquired (llm : Llama) (messages_for_llm : list pyval)
| Invoking (llm : Llama) (call : blocking_task)
| Finished (o : outcome).

Record task := {
  request_data : ChatCompletionRequest;
  at_pc : pc;
}.

Definition new_task (rq : ChatCompletionRequest) : task :=
  {| request_data := rq; at_pc := Arrived |}.

Definition goto (t : task) (p : pc) : task :=
  {| request_data := request_data t; at_pc := p |}.

Section Handler.

Variable e : env.

(** The engine: the blocking [llm.create_chat_completion], returning any
    Python value or raising. *)
Variable create_chat_completion : Llama → blocking_task → exn + pyval.

(** The two [Depends] parameters of the handler, resolved in order before
    the handler is called. *)
Definition resolve_dependencies (s : app_state) : M Llama :=
  l ← get_llm_instance s;
  _ ← get_llm_lock s;
  mret l.

(** Lines 69-82: from the entry of the handler to [async with]. *)
Definition validate (rq : ChatCompletionRequest) : M (list pyval) :=
  logger INFO "Received chat completion request.";;
  match messages rq with
  | [] =>
      logger WARNING "Received empty messages list for chat completion.";;
      raise (HTTPException 400 "Messages list cannot be empty.")
  | _ =>
      logger DEBUG "Chat completion request details: ";;
      mret (model_dump <$> messages rq)
  end.

(** Lines 119-153: the response built from the engine's dict. *)
Definition build_response (completion_result : pyval) : M ChatCompletionResponse :=
  all_choices ← lift (getitem completion_result (KStr "choices"));
  first_choice ← lift (getitem all_choices (KInt 0));
  llm_message ← lift (getitem first_choice (KStr "message"));
  role_v ← lift (dict_get llm_message "role" (PStr "assistant"));
  content_v ← lift (dict_get llm_message "content" (PStr ""));
  response_message ← new_ChatMessageOutput role_v content_v;
  finish_v ← lift (dict_get first_choice "finish_reason" (PStr "stop"));
  choice ← new_ChatCompletionChoice 0 response_message finish_v;
  let model_name_display :=
    if str_truthy (MODEL_PATH e) && path_exists e (MODEL_PATH e)
    then basename (MODEL_PATH e) else "unknown_model" in
  logger INFO "Successfully generated chat completion response.";;
  id_v ← lift (dict_get completion_result "id"
                 (PStr ("chatcmpl-" +:+ pretty (time_now e))));
  created_v ← lift (dict_get completion_result "created" (PInt (time_now e)));
  new_ChatCompletionResponse id_v created_v model_name_display [choice].

(** Lines 107-160: the rest of the [try] once the executor's future is
    resolved with [result], and the two [except] clauses. *)
Definition after_inference (result : exn + pyval) : M (option ChatCompletionResponse) :=
  try_except
    (completion_result ← lift result;
     logger INFO "LLM processing completed.";;
     if negb (is_dict completion_result) then
       logger ERROR "Unexpected LLM response structure: ";;
       raise (HTTPException 500 "Invalid response structure from LLM.")
     else
       response ← build_response completion_result;
       mret (Some response))
    (λ x, if is_HTTPException x then raise x
          else if is_Exception x then
            logger EXCEPTION "An unexpected error occurred during chat completion: ";;
            mret None
          else raise x).

Definition to_outcome (r : exn + option ChatCompletionResponse) : outcome :=
  match r with inl x => Raised x | inr v => Returned v end.

(** One step of one request: the code between two suspension points, run
    atomically on the event loop.  [None]: the request cannot move (it waits
    for the lock, or it is finished). *)
Definition task_step (w : world) (t : task) : option (world * task) :=
  match at_pc t with
  | Arrived =>
      let r := resolve_dependencies (state w) in
      Some (emit r.1 w,
            goto t match r.2 with
                   | inl x => Finished (Raised x)
                   | inr l => Received l
                   end)
  | Received l =>
      let r := validate (request_data t) in
      Some (emit r.1 w,
            goto t match r.2 with
                   | inl x => Finished (Raised x)
                   | inr ms => Validated l ms
                   end)
  | Validated l ms =>
      (* [async with llm_lock]: entered only when the lock is free; which of
         several waiting requests enters is left to the schedule *)
      if locked w then None
      else Some (emit [LockAcquire; Log INFO "Acquired lock."] (set_locked true w),
                 goto t (GateAcquired l ms))
  | GateAcquired l ms =>
      let rq := request_data t in
      let call := {| kw_messages := ms; kw_temperature := temperature rq;
                     kw_max_tokens := max_tokens rq; kw_top_p := top_p rq;
                     kw_stop := stop rq |} in
      Some (emit [Log INFO "Offloading LLM inference to thread pool executor.";
                  EngineCall call] w,
            goto t (Invoking l call))
  | Invoking l call =>
      let r := after_inference (create_chat_completion l call) in
      (* leaving [async with]: the lock is released whatever [r] is *)
      Some (emit [LockRelease] (set_locked false (emit r.1 w)),
            goto t (Finished (to_outcome r.2)))
  | Finished _ => None
  end.

(** A request served with nothing else running: steps are taken until the
    request finishes or cannot move. *)
Fixpoint run (fuel : nat) (w : world) (t : task) : world * task :=
  match fuel with
  | O => (w, t)
  | S n =>
      match task_step w t with
      | Some (w', t') => run n w' t'
      | None => (w, t)
      end
  end.

Definition serve (w : world) (rq : ChatCompletionRequest) : world * pc :=
  let r := run 5 w (new_task rq) in (r.1, at_pc r.2).

(** *** Concurrent requests *)

(** Several requests on one event loop: the shared process and one
    coroutine per request. *)
Record system := {
  shared : world;
  tasks : list task;
}.

Definition submit (w : world) (rqs : list ChatCompletionRequest) : system :=
  {| shared := w; tasks := new_task <$> rqs |}.

(** The event loop resumes request [i]; nothing happens when that request
    cannot move or does not exist. *)
Definition resume (s : system) (i : nat) : system :=
  match tasks s !! i with
  | Some t =>
      match task_step (shared s) t with
      | Some (w', t') => {| shared := w'; tasks := <[i := t']> (tasks s) |}
      | None => s
      end
  | None => s
  end.

(** A schedule is the order in which the event loop resumes requests. *)
Definition exec (schedule : list nat) (s : system) : system :=
  foldl resume s schedule.

Definition is_invoking (t : task) : bool :=
  match at_pc t with Invoking _ _ => true | _ => false end.

(** Requests inside the critical section of [async with llm_lock]. *)
Definition holds_gate (t : task) : bool :=
  match at_pc t with GateAcquired _ _ | Invoking _ _ => true | _ => false end.

Definition count_tasks (p : task → bool) (ts : list task) : nat :=
  length (filter (λ t, p t = true) ts).

End Handler.

(** ** [client_chat.py]: LLMChatClient *)

Module Client.

(** An entry of the history: the dict with keys "role" and "content". *)
Record message := {
  role : string;
  content : pyval;
}.

Record LLMChatClient := {
  service_url : string;
  request_timeout : Z;
  conversation_history : list message;
}.

(** The [json=] argument of [requests.post]. *)
Record payload := {
  p_messages : list message;
  p_temperature : Q;
  p_max_tokens : Z;
}.

(** What [requests.post] does: it raises, or it returns a response with a
    status code whose [json()] raises or yields the decoded body. *)
Inductive post_result :=
| PostRaises (x : exn)
| PostReturns (status_code : Z) (json : exn + pyval).

Definition set_history (h : list message) (c : LLMChatClient) : LLMChatClient :=
  {| service_url := service_url c; request_timeout := request_timeout c;
     conversation_history := h |}.

Definition init (service_url : string) (request_timeout : Z)
    (default_system_prompt : option string) : LLMChatClient :=
  {| service_url := service_url; request_timeout := request_timeout;
     conversation_history :=
       match default_system_prompt with
       | Some p => if str_truthy p then [{| role := "system"; content := PStr p |}] else []
       | None => []
       end |}.

Definition add_user_message (text : string) (c : LLMChatClient) : LLMChatClient :=
  set_history (conversation_history c ++ [{| role := "user"; content := PStr text |}]) c.

Definition add_assistant_message (v : pyval) (c : LLMChatClient) : LLMChatClient :=
  set_history (conversation_history c ++ [{| role := "assistant"; content := v |}]) c.

(** [history and history[-1]["role"] == "user"] *)
Definition last_is_user (h : list message) : bool :=
  match last h with
  | Some m => String.eqb (role m) "user"
  | None => false
  end.

Definition _revert_last_user_message (c : LLMChatClient) : LLMChatClient :=
  if last_is_user (conversation_history c)
  then set_history (removelast (conversation_history c)) c
  else c.

(** [response.raise_for_status()] *)
Definition raise_for_status (status_code : Z) : exn + unit :=
  if (400 <=? status_code) && (status_code <? 600)
  then inl (HTTPError status_code) else inr ().

Global Instance exn_ret : MRet (sum exn) := λ A a, inr a.

Global Instance exn_bind : MBind (sum exn) := λ A B f m,
  match m with inl x => inl x | inr a => f a end.

(** The result of a call: the returned value or the exception that leaves
    the method, the client afterwards, and the requests that were sent. *)
Record call_result := {
  returned : exn + pyval;
  client_after : LLMChatClient;
  sent : list payload;
}.

Section Gateway.

Variable requests_post : string → payload → Z → post_result.

(** The body of the [try] (lines 104-120) up to the evaluation of
    [assistant_message_data["content"]]. *)
Definition fetch_content (pl : payload) (c : LLMChatClient) : exn + pyval :=
  match requests_post (service_url c) pl (request_timeout c) with
  | PostRaises x => inl x
  | PostReturns status_code json =>
      _ ← raise_for_status status_code;
      response_data ← json;
      all_choices ← getitem response_data (KStr "choices");
      first_choice ← getitem all_choices (KInt 0);
      assistant_message_data ← getitem first_choice (KStr "message");
      getitem assistant_message_data (KStr "content")
  end.

Definition get_llm_response (c : LLMChatClient) (temperature : Q) (max_tokens : Z)
    : call_result :=
  if negb (last_is_user (conversation_history c)) then
    {| returned := inr (PStr "Error: Internal client error - no user message to respond to.");
       client_after := c; sent := [] |}
  else
    let pl := {| p_messages := conversation_history c;
                 p_temperature := temperature; p_max_tokens := max_tokens |} in
    match fetch_content pl c with
    | inr v =>
        {| returned := inr v; client_after := add_assistant_message v c; sent := [pl] |}
    | inl x =>
        if is_lookup_error x then
          {| returned := inr (PStr "Error: Received an invalid response from the AI.");
             client_after := _revert_last_user_message c; sent := [pl] |}
        else if is_Exception x then
          {| returned := inr (PStr "Error: An unexpected problem occurred.");
             client_after := _revert_last_user_message c; sent := [pl] |}
        else
          {| returned := inl x; client_after := c; sent := [pl] |}
    end.

End Gateway.

End Client.

(** ** Specification-side notions *)

(** What the gateway answered, read off the structure of the reply: the
    content of the first choice's message, an error of the gateway (failed
    request, HTTP error status, undecodable or malformed body), or an
    interruption that is not an [Exception]. *)
Inductive reply :=
| Answer (v : pyval)
| GatewayError
| Interrupted (x : exn).

Definition classify (res : Client.post_result) : reply :=
  match res with
  | Client.PostRaises x => if is_Exception x then GatewayError else Interrupted x
  | Client.PostReturns status_code json =>
      if (400 <=? status_code) && (status_code <? 600) then GatewayError
      else match json with
           | inl x => if is_Exception x then GatewayError else Interrupted x
           | inr (PDict d) =>
               match d !! "choices" with
               | Some (PList (PDict fc :: _)) =>
                   match fc !! "message" with
                   | Some (PDict m) =>
                       match m !! "content" with
                       | Some v => Answer v
                       | None => GatewayError
                       end
                   | _ => GatewayError
                   end
               | _ => GatewayError
               end
           | inr _ => GatewayError
           end
  end.

(** A textual field of the engine's dict: the string stored under the key,
    or the default when the key is missing. *)
Definition text_or (dflt : string) (field : option pyval) : string :=
  match field with Some (PStr s) => s | _ => dflt end.

Definition int_or (dflt : Z) (field : option pyval) : Z :=
  match field with Some (PInt n) => n | _ => dflt end.

Definition text_if_present (field : option pyval) : bool :=
  match field with Some (PStr _) | None => true | _ => false end.

Definition int_if_present (field : option pyval) : bool :=
  match field with Some (PInt _) | None => true | _ => false end.

(** The engine's output has the expected structure: a dict whose "choices"
    is a list starting with a dict whose "message" is a dict, the optional
    fields being of their declared kind when present. *)
Definition expected_result (d fc m : gmap string pyval) : Prop :=
  (∃ rest, d !! "choices" = Some (PList (PDict fc :: rest))) ∧
  fc !! "message" = Some (PDict m) ∧
  text_if_present (m !! "role") = true ∧
  text_if_present (m !! "content") = true ∧
  text_if_present (fc !! "finish_reason") = true ∧
  text_if_present (d !! "id") = true ∧
  int_if_present (d !! "created") = true.

(** The model name reported by the health endpoint when the engine is
    loaded. *)
Definition resolved_model_name (e : env) : string :=
  if str_truthy (MODEL_PATH e) then
    if path_exists e (MODEL_PATH e) then basename (MODEL_PATH e)
    else basename (MODEL_PATH e) +:+ " (file not found)"
  else "N/A".

(** The load at startup yields an engine. *)
Definition load_succeeds (e : env) (llama_raises : option exn) : bool :=
  path_exists e (MODEL_PATH e) &&
  match llama_raises with None => true | Some _ => false end.

(** The two details of the 503 error of [core/dependencies.py]. *)
Definition detail_no_llm : string :=
  "LLM model is not loaded or unavailable. Check /health endpoint.".

Definition detail_no_lock : string :=
  "LLM lock is unavailable. Service may be initializing or LLM failed to load.".

(** The model name put into a completion response. *)
Definition response_model_name (e : env) : string :=
  if str_truthy (MODEL_PATH e) && path_exists e (MODEL_PATH e)
  then basename (MODEL_PATH e) else "unknown_model".

(** The engine call a request leads to. *)
Definition call_of (rq : ChatCompletionRequest) : blocking_task :=
  {| kw_messages := model_dump <$> messages rq;
     kw_temperature := temperature rq; kw_max_tokens := max_tokens rq;
     kw_top_p := top_p rq; kw_stop := stop rq |}.

(** A trace made of log records only. *)
Definition only_logs (tr : list event) : Prop :=
  Forall (λ ev, ∃ lvl msg, ev = Log lvl msg) tr.

(** The lock's flag tells how many requests are inside the critical
    section: one when it is set, none when it is clear. *)
Definition gate_consistent (s : system) : Prop :=
  count_tasks holds_gate (tasks s) = if locked (shared s) then 1%nat else 0%nat.

(** ** Concrete configurations used in examples *)

Module Samples.

Definition on_disk : env :=
  {| MODEL_PATH := "models/mistral-7b-instruct-v0.1.Q4_K_M.gguf";
     N_GPU_LAYERS := -1; N_CTX := 4096; N_THREADS := 4; VERBOSE_LLAMA := true;
     path_exists := λ _, true; time_now := 1700000000 |}.

Definition not_on_disk : env :=
  {| MODEL_PATH := "models/mistral-7b-instruct-v0.1.Q4_K_M.gguf";
     N_GPU_LAYERS := -1; N_CTX := 4096; N_THREADS := 4; VERBOSE_LLAMA := true;
     path_exists := λ _, false; time_now := 1700000000 |}.

(** A process before its lifespan has run: no attribute is set. *)
Definition boot : world :=
  {| state := {| llm := None; llm_lock := None |}; locked := false; trace := [] |}.

Definition loaded : world := (lifespan_startup on_disk None boot).1.

Definition degraded : world := (lifespan_startup not_on_disk None boot).1.

Definition hello : ChatCompletionRequest :=
  {| messages := [{| role := "user"; content := "hello" |}];
     temperature := (7 # 10)%Q; max_tokens := 10; top_p := 1%Q; stop := None |}.

Definition no_messages : ChatCompletionRequest :=
  {| messages := []; temperature := (7 # 10)%Q; max_tokens := 512;
     top_p := 1%Q; stop := None |}.

(** The test double of the spec's scenario. *)
Definition canned_message : gmap string pyval :=
  {[ "role" := PStr "assistant"; "content" := PStr "hi there" ]}.

Definition canned_choice : gmap string pyval :=
  {[ "message" := PDict canned_message ]}.

Definition canned_result : gmap string pyval :=
  {[ "choices" := PList [PDict canned_choice] ]}.

Definition canned : Llama → blocking_task → exn + pyval :=
  λ _ _, inr (PDict canned_result).

(** The engine object of [loaded]. *)
Definition engine : Llama :=
  {| model_path := MODEL_PATH on_disk; n_gpu_layers := -1; n_ctx := 4096;
     n_threads := 4; verbose := true |}.

(** An engine that fails during generation. *)
Definition broken : Llama → blocking_task → exn + pyval :=
  λ _ _, inl (RuntimeError "boom").

(** An engine whose output is a dict without "choices". *)
Definition shapeless : Llama → blocking_task → exn + pyval :=
  λ _ _, inr (PDict ∅).

(** A gateway that is down, and one that answers. *)
Definition unreachable : string → Client.payload → Z → Client.post_result :=
  λ _ _ _, Client.PostRaises RequestException.

Definition answering : string → Client.payload → Z → Client.post_result :=
  λ _ _ _, Client.PostReturns 200 (inr (PDict {[ "choices" :=
    PList [PDict {[ "message" :=
      PDict {[ "role" := PStr "assistant";
               "content" := PStr "Artificial Intelligence." ]} ]}] ]})).

Definition fresh_client : Client.LLMChatClient :=
  Client.init "http://fake-llm-service.com/api" 10 None.

End Samples.

(** ** [client_chat.py]: clearing the history and the interactive loop *)

Module Chat.

(** [LLMChatClient.clear_history] *)
Definition clear_history (system_prompt : option string)
    (c : Client.LLMChatClient) : Client.LLMChatClient :=
  Client.set_history
    match system_prompt with
    | Some p =>
        if str_truthy p
        then [{| Client.role := "system"; Client.content := PStr p |}] else []
    | None => []
    end c.

(** Modelled from the spec: the client configuration of [core/schemas.py]
    (service URL, request timeout, default generation parameters, default
    system prompt, client log level), which is not among the sources. *)
Record GenerationParams := {
  temperature : Q;
  max_tokens : Z;
}.

Record ClientConfig := {
  service_url : string;
  request_timeout : Z;
  generation_params : GenerationParams;
  default_system_prompt : option string;
  client_log_level : string;
}.

(** A Python float as [float()] returns it: a number, or one of nan, inf
    and -inf, which fail every range check of the loop. *)
Inductive pyfloat := Finite (q : Q) | NotFinite.

(** What [input()] meets next; the end of the list is the end of file. *)
Inductive keyboard := Typed (line : string) | CtrlC.

(** What the loop prints: a text (its constant part, without line breaks),
    the answer of a turn, or the history. *)
Inductive output :=
| Print (text : string)
| PrintAnswer (v : pyval)
| PrintHistory (h : list Client.message).

(** How the loop is left: by [break], or by an exception nothing catches:
    end of file or Ctrl-C at the prompt of a system prompt, or an
    exception that escaped [get_llm_response]. *)
Inductive ending :=
| Broke
| PromptEOF
| PromptInterrupt
| RequestEscaped (x : exn).

(** The local variables of [run_chat_loop], the screen and the requests
    posted so far. *)
Record session := {
  client : Client.LLMChatClient;
  current_turn_temp : option Q;
  current_turn_tokens : option Z;
  screen : list output;
  posted : list Client.payload;
}.

(** [s.split(" ", 1)[1]]: what follows the first space; [None] stands for
    the IndexError when there is no space. *)
Fixpoint after_first_space (s : string) : option string :=
  match s with
  | EmptyString => None
  | String c r => if Ascii.eqb c " "%char then Some r else after_first_space r
  end.

Section Loop.

(** [str.strip], [str.lower], [float] and [int] of the interpreter; [None]
    stands for the ValueError of a failed conversion. *)
Variable strip : string → string.
Variable lower : string → string.
Variable float : string → option pyfloat.
Variable int : string → option Z.

(** The gateway as the session meets it: the answer may depend on how many
    requests the session has posted before. *)
Variable requests_post : nat → string → Client.payload → Z → Client.post_result.

Variable config : ClientConfig.

Definition say (o : output) (s : session) : session :=
  {| client := client s; current_turn_temp := current_turn_temp s;
     current_turn_tokens := current_turn_tokens s;
     screen := screen s ++ [o]; posted := posted s |}.

(** [client.print_history()] *)
Definition print_history (s : session) : session :=
  say (PrintHistory (Client.conversation_history (client s))) s.

(** The system prompt in force: what was typed, else the configured
    default, else none. *)
Definition chosen_system_prompt (typed : string) : option string :=
  if str_truthy typed then Some typed
  else match default_system_prompt config with
       | Some p => if str_truthy p then Some p else None
       | None => None
       end.

(** Lines 274-283: the [/temp] command. *)
Definition set_temp (user_input : string) (s : session) : session :=
  match after_first_space user_input with
  | None => say (Print "Invalid format. Use: /temp <value_float>") s
  | Some arg =>
      match float arg with
      | None => say (Print "Invalid format. Use: /temp <value_float>") s
      | Some (Finite temp_val) =>
          if Qle_bool 0 temp_val && Qle_bool temp_val 2 then
            say (Print "Temperature for next turn set to: ")
              {| client := client s; current_turn_temp := Some temp_val;
                 current_turn_tokens := current_turn_tokens s;
                 screen := screen s; posted := posted s |}
          else say (Print "Invalid temperature. Must be between 0.0 and 2.0.") s
      | Some NotFinite =>
          say (Print "Invalid temperature. Must be between 0.0 and 2.0.") s
      end
  end.

(** Lines 285-294: the [/tokens] command. *)
Definition set_tokens (user_input : string) (s : session) : session :=
  match after_first_space user_input with
  | None => say (Print "Invalid format. Use: /tokens <value_int>") s
  | Some arg =>
      match int arg with
      | None => say (Print "Invalid format. Use: /tokens <value_int>") s
      | Some tokens_val =>
          if 0 <? tokens_val then
            say (Print "Max tokens for next turn set to: ")
              {| client := client s; current_turn_temp := current_turn_temp s;
                 current_turn_tokens := Some tokens_val;
                 screen := screen s; posted := posted s |}
          else say (Print "Invalid max_tokens. Must be a positive integer.") s
      end
  end.

(** Lines 251-263: the [/clear] command once the new prompt is read. *)
Definition clear (new_sys_prompt_input : string) (s : session) : session :=
  say (Print "Chat history cleared.")
    {| client := clear_history (chosen_system_prompt new_sys_prompt_input) (client s);
       current_turn_temp := Some (temperature (generation_params config));
       current_turn_tokens := Some (max_tokens (generation_params config));
       screen := screen s; posted := posted s |}.

(** Lines 296-313: a chat turn.  The exception is the one that escapes
    [get_llm_response], if any. *)
Definition chat_turn (user_input : string) (s : session) : session * option exn :=
  let r :=
    Client.get_llm_response (requests_post (length (posted s)))
      (Client.add_user_message user_input (client s))
      (default (temperature (generation_params config)) (current_turn_temp s))
      (default (max_tokens (generation_params config)) (current_turn_tokens s)) in
  match Client.returned r with
  | inl x =>
      ({| client := Client.client_after r;
          current_turn_temp := current_turn_temp s;
          current_turn_tokens := current_turn_tokens s;
          screen := screen s; posted := posted s ++ Client.sent r |}, Some x)
  | inr assistant_response =>
      ({| client := Client.client_after r;
          current_turn_temp := Some (temperature (generation_params config));
          current_turn_tokens := Some (max_tokens (generation_params config));
          screen := screen s ++ [PrintAnswer assistant_response];
          posted := posted s ++ Client.sent r |}, None)
  end.

(** The [while True] loop, one iteration per line read at "You: ". *)
Fixpoint chat_loop (stdin : list keyboard) (s : session) : session * ending :=
  match stdin with
  | [] => (say (Print "Exiting chat (EOF).") s, Broke)
  | CtrlC :: _ => (say (Print "Exiting chat (Interrupted).") s, Broke)
  | Typed user_input_raw :: rest =>
      let user_input := strip user_input_raw in
      if negb (str_truthy user_input) then chat_loop rest s
      else if String.eqb (lower user_input) "/exit" then
        (say (Print "Exiting chat.") s, Broke)
      else if String.eqb (lower user_input) "/history" then
        chat_loop rest (print_history s)
      else if String.eqb (lower user_input) "/clear" then
        match rest with
        | [] => (s, PromptEOF)
        | CtrlC :: _ => (s, PromptInterrupt)
        | Typed answer :: rest' => chat_loop rest' (clear (strip answer) s)
        end
      else if String.prefix "/temp " (lower user_input) then
        chat_loop rest (set_temp user_input s)
      else if String.prefix "/tokens " (lower user_input) then
        chat_loop rest (set_tokens user_input s)
      else
        match chat_turn user_input s with
        | (s', Some x) => (s', RequestEscaped x)
        | (s', None) => chat_loop rest s'
        end
  end.

(** [run_chat_loop]: the system prompt is asked for, the client is built,
    the loop runs, and after a [break] the history is printed. *)
Definition run_chat_loop (stdin : list keyboard) : option session * ending :=
  match stdin with
  | [] => (None, PromptEOF)
  | CtrlC :: _ => (None, PromptInterrupt)
  | Typed answer :: rest =>
      let start :=
        {| client := Client.init (service_url config) (request_timeout config)
                       (chosen_system_prompt (strip answer));
           current_turn_temp := Some (temperature (generation_params config));
           current_turn_tokens := Some (max_tokens (generation_params config));
           screen :=
             [Print "Starting chat. Type '/exit' to end, '/history' to show history, '/clear' to reset.";
              Print "You can also use '/temp <value>' or '/tokens <value>' to change generation parameters for the next turn."];
           posted := [] |} in
      match chat_loop rest start with
      | (s, Broke) => (Some (print_history s), Broke)
      | (s, other) => (Some s, other)
      end
  end.

End Loop.

End Chat.

(** ** More specification-side notions *)

(** Complete exchanges: a user message followed by an assistant message,
    any number of times. *)
Fixpoint exchanges (h : list Client.message) : bool :=
  match h with
  | [] => true
  | u :: a :: r =>
      String.eqb (Client.role u) "user" &&
      String.eqb (Client.role a) "assistant" && exchanges r
  | _ => false
  end.

(** A settled conversation: an optional system message, then complete
    exchanges. *)
Definition dialogue (h : list Client.message) : bool :=
  match h with
  | m :: r => if String.eqb (Client.role m) "system" then exchanges r else exchanges h
  | [] => true
  end.

(** A payload as the loop posts it: a settled conversation followed by the
    user message to answer. *)
Definition open_turn (h : list Client.message) : Prop :=
  ∃ h0 text, dialogue h0 = true ∧
             h = h0 ++ [{| Client.role := "user"; Client.content := PStr text |}].

(** Generation parameters the loop may use: the configured default or a
    value that passed the check of its command. *)
Definition in_range (config : Chat.ClientConfig) (temp : Q) (tokens : Z) : Prop :=
  (temp = Chat.temperature (Chat.generation_params config) ∨ (0 <= temp <= 2)%Q) ∧
  (tokens = Chat.max_tokens (Chat.generation_params config) ∨ 0 < tokens).

(** A request as the loop posts it. *)
Definition well_posed (config : Chat.ClientConfig) (p : Client.payload) : Prop :=
  open_turn (Client.p_messages p) ∧
  in_range config (Client.p_temperature p) (Client.p_max_tokens p).

(** The state of the loop between two turns. *)
Definition settled (config : Chat.ClientConfig) (s : Chat.session) : Prop :=
  dialogue (Client.conversation_history (Chat.client s)) = true ∧
  in_range config
    (default (Chat.temperature (Chat.generation_params config)) (Chat.current_turn_temp s))
    (default (Chat.max_tokens (Chat.generation_params config)) (Chat.current_turn_tokens s)) ∧
  Forall (well_posed config) (Chat.posted s).

(** What the caller receives.  The route is declared with
    [response_model=ChatCompletionResponse]: the framework answers a
    returned response with 200, an [HTTPException] with its status code,
    and with 500 both an exception of the handler that nothing catches and
    a returned value that is no [ChatCompletionResponse], such as None,
    which fails the validation of the response.  An interruption that is no
    [Exception] gives no answer. *)
Definition http_status (o : outcome) : option Z :=
  match o with
  | Returned (Some _) => Some 200
  | Returned None => Some 500
  | Raised (HTTPException status_code _) => Some status_code
  | Raised x => if is_Exception x then Some 500 else None
  end.

(** A result of the engine call that is not the expected structured
    result: a value that is no dict, a dict of another structure, or an
    ordinary exception that is no [HTTPException]. *)
Definition unexpected (result : exn + pyval) : Prop :=
  match result with
  | inl x => is_Exception x = true ∧ is_HTTPException x = false
  | inr (PDict d) => ¬ ∃ fc m, expected_result d fc m
  | inr _ => True
  end.

(** What a computation of [M] ends in: exceptions satisfying [E], values
    satisfying [Q]. *)
Definition yields {A} (m : M A) (E : exn → Prop) (Q : A → Prop) : Prop :=
  match m.2 with inl x => E x | inr a => Q a end.

(** An exception the handler's last [except] clause swallows. *)
Definition swallowed (x : exn) : Prop :=
  is_Exception x = true ∧ is_HTTPException x = false.

Definition is_gate_acquired (t : task) : bool :=
  match at_pc t with GateAcquired _ _ => true | _ => false end.

Definition is_finished (t : task) : bool :=
  match at_pc t with Finished _ => true | _ => false end.

(** Steps a request still has to take. *)
Definition steps_left (p : pc) : nat :=
  match p with
  | Arrived => 5
  | Received _ => 4
  | Validated _ _ => 3
  | GateAcquired _ _ => 2
  | Invoking _ _ => 1
  | Finished _ => 0
  end.

Fixpoint has_slash (s : string) : bool :=
  match s with
  | EmptyString => false
  | String c r => Ascii.eqb c "/"%char || has_slash r
  end.

(** The schedule that serves the requests one after the other: request 0
    five times, then request 1 five times, and so on. *)
Definition one_by_one (n : nat) : list nat :=
  flat_map (λ i, replicate 5 i) (seq 0 n).

Module ChatSamples.

(** The defaults of the client configuration, and a gateway that is down
    for the first request of a session and answers afterwards. *)
Definition chat_config : Chat.ClientConfig :=
  {| Chat.service_url := "http://localhost:8000/v1/chat/completions";
     Chat.request_timeout := 120;
     Chat.generation_params := {| Chat.temperature := (7 # 10)%Q; Chat.max_tokens := 512 |};
     Chat.default_system_prompt := None;
     Chat.client_log_level := "INFO" |}.

Definition recovering : nat → string → Client.payload → Z → Client.post_result :=
  λ n, match n with O => Samples.unreachable | S _ => Samples.answering end.

End ChatSamples.

(** * Properties *)

(** ** Basic facts about worlds and traces *)

Lemma count_events_app p (a b : list event) :
  count_events p (a ++ b) = (count_events p a + count_events p b)%nat.
Proof. unfold count_events. by rewrite filter_app, length_app. Qed.

Lemma state_emit evs w : state (emit evs w) = state w.
Proof. done. Qed.

Lemma locked_emit evs w : locked (emit evs w) = locked w.
Proof. done. Qed.

Lemma trace_emit evs w : trace (emit evs w) = trace w ++ evs.
Proof. done. Qed.

Lemma emit_emit a b w : emit b (emit a w) = emit (a ++ b) w.
Proof. unfold emit; simpl. by rewrite <- app_assoc. Qed.

(** *** Stretches of code that only log *)

Lemma only_logs_counts tr :
  only_logs tr →
  count_events is_acquire tr = 0%nat ∧
  count_events is_release tr = 0%nat ∧
  count_events is_engine_call tr = 0%nat.
Proof.
  induction 1 as [|ev tr (lvl & msg & ->) _ IH]; [done|].
  unfold count_events in *. rewrite !filter_cons. simpl.
  repeat case_decide; done.
Qed.

Lemma only_logs_ret {A} (a : A) : only_logs (mret a : M A).1.
Proof. constructor. Qed.

Lemma only_logs_lift {A} (x : exn + A) : only_logs (lift x).1.
Proof. constructor. Qed.

Lemma only_logs_raise {A} x : only_logs (raise x : M A).1.
Proof. constructor. Qed.

Lemma only_logs_logger lvl msg : only_logs (logger lvl msg).1.
Proof. repeat constructor. eauto. Qed.

Lemma only_logs_bind {A B} (m : M A) (f : A → M B) :
  only_logs m.1 → (∀ a, only_logs (f a).1) → only_logs (m ≫= f).1.
Proof.
  intros Hm Hf. unfold mbind, M_bind. destruct m as [tr [x|a]]; simpl in *; [done|].
  specialize (Hf a). destruct (f a) as [tr' r]. simpl in *.
  apply Forall_app. by split.
Qed.

Lemma only_logs_try {A} (m : M A) (h : exn → M A) :
  only_logs m.1 → (∀ x, only_logs (h x).1) → only_logs (try_except m h).1.
Proof.
  intros Hm Hh. unfold try_except. destruct m as [tr [x|a]]; simpl in *; [|done].
  specialize (Hh x). destruct (h x) as [tr' r]. simpl in *.
  apply Forall_app. by split.
Qed.

Create HintDb logs.

#[local] Hint Resolve only_logs_ret only_logs_lift only_logs_raise only_logs_logger
  only_logs_bind only_logs_try : logs.

(** ** Lifecycle *)

Section LifespanFacts.

Variable e : env.
Variable llama_raises : option exn.

(** Whatever the file system and the constructor do, the attributes written
    by the startup agree: the lock is there exactly when the engine is. *)
Lemma startup_state w :
  (∀ x, llama_raises = Some x → is_Exception x = true) →
  let r := lifespan_startup e llama_raises w in
  r.2 = None ∧
  state r.1 =
    (if load_succeeds e llama_raises
     then {| llm := Some (Some {| model_path := MODEL_PATH e;
                                  n_gpu_layers := N_GPU_LAYERS e;
                                  n_ctx := N_CTX e; n_threads := N_THREADS e;
                                  verbose := VERBOSE_LLAMA e |});
             llm_lock := Some (Some TheLock) |}
     else {| llm := Some None; llm_lock := Some None |}) ∧
  (load_succeeds e llama_raises = true → locked r.1 = false).
Proof.
  intros Hexc. unfold lifespan_startup, load_llm_instance, load_succeeds, Llama_init.
  destruct (path_exists e (MODEL_PATH e)); simpl.
  - destruct llama_raises as [x|]; simpl.
    + rewrite (Hexc x eq_refl). simpl. by intuition.
    + by intuition.
  - by intuition.
Qed.

Lemma shutdown_state w :
  state (lifespan_shutdown w) = {| llm := None; llm_lock := llm_lock (state w) |} ∨
  (llm_available (state w) = false ∧ state (lifespan_shutdown w) = state w).
Proof.
  unfold lifespan_shutdown. simpl.
  destruct (llm_available (state w)) eqn:Hav; simpl; [by left | by right].
Qed.

Lemma shutdown_unavailable w : llm_available (state (lifespan_shutdown w)) = false.
Proof.
  destruct (shutdown_state w) as [-> | [Hav ->]]; done.
Qed.

Lemma shutdown_keeps_lock w :
  llm_lock (state (lifespan_shutdown w)) = llm_lock (state w) ∧
  locked (lifespan_shutdown w) = locked w.
Proof.
  unfold lifespan_shutdown. simpl.
  destruct (llm_available (state w)); done.
Qed.

Lemma shutdown_noop w :
  llm_available (state w) = false → state (lifespan_shutdown w) = state w.
Proof.
  intros Hun. destruct (shutdown_state w) as [Heq | [_ Heq]]; [|done].
  revert Heq. unfold lifespan_shutdown. simpl. by rewrite Hun.
Qed.

Lemma shutdown_idempotent w :
  state (lifespan_shutdown (lifespan_shutdown w)) = state (lifespan_shutdown w).
Proof. apply shutdown_noop, shutdown_unavailable. Qed.

End LifespanFacts.

(** C8, as the code has it: when the constructor fails only with ordinary
    exceptions, the startup completes; afterwards the engine is present
    exactly when the artifact exists and the load succeeded, the gate exists
    exactly when the engine is present, and a present gate is unlocked.  The
    shutdown leaves the engine absent, does not touch the gate attribute or
    its flag, and running it again changes nothing in [app.state]. *)
Theorem lifespan_gate_follows_engine e llama_raises w w' :
  (∀ x, llama_raises = Some x → is_Exception x = true) →
  let up := lifespan_startup e llama_raises w in
  let down := lifespan_shutdown w' in
  up.2 = None ∧
  llm_available (state up.1) = load_succeeds e llama_raises ∧
  lock_available (state up.1) = llm_available (state up.1) ∧
  llm_available (state up.1) && locked up.1 = false ∧
  llm_available (state down) = false ∧
  llm_lock (state down) = llm_lock (state w') ∧
  locked down = locked w' ∧
  state (lifespan_shutdown down) = state down.
Proof.
  intros Hexc up down.
  destruct (startup_state e llama_raises w Hexc) as (Hret & Hst & Hlk).
  fold up in Hret, Hst, Hlk.
  destruct (shutdown_keeps_lock w') as [Hattr Hflag].
  repeat split; try done.
  - rewrite Hst. by destruct (load_succeeds e llama_raises).
  - rewrite Hst. by destruct (load_succeeds e llama_raises).
  - rewrite Hst. destruct (load_succeeds e llama_raises) eqn:Hok; [|done].
    simpl. by apply Hlk.
  - apply shutdown_unavailable.
  - apply shutdown_idempotent.
Qed.

(** The startup with a constructor raising [RuntimeError], and the shutdown
    of a loaded process. *)
Lemma lifespan_gate_follows_engine_witness :
  let up := lifespan_startup Samples.on_disk (Some (RuntimeError "load")) Samples.boot in
  let down := lifespan_shutdown Samples.loaded in
  up.2 = None ∧
  llm_available (state up.1) = false ∧
  lock_available (state up.1) = llm_available (state up.1) ∧
  llm_available (state up.1) && locked up.1 = false ∧
  llm_available (state down) = false ∧
  llm_lock (state down) = llm_lock (state Samples.loaded) ∧
  locked down = locked Samples.loaded ∧
  state (lifespan_shutdown down) = state down.
Proof.
  apply (lifespan_gate_follows_engine Samples.on_disk (Some (RuntimeError "load"))
           Samples.boot Samples.loaded).
  intros x Hx. injection Hx as <-. reflexivity.
Defined.

(** C8 as stated fails: after a successful start and a stop the engine is
    gone while the gate is still stored in [app.state]. *)
Lemma shutdown_leaves_gate_without_engine :
  let w := lifespan_shutdown (lifespan_startup Samples.on_disk None Samples.boot).1 in
  llm_available (state w) = false ∧ lock_available (state w) = true.
Proof. split; reflexivity. Qed.

(** ** Health *)

(** C7: the health query answers "ok", model_loaded true and the resolved
    model name when the engine is present, and "warning", model_loaded
    false, a message and the configured path when it is absent; it always
    returns a dict, leaves [app.state] and the lock as they are, and logs
    without touching the gate. *)
Theorem health_reports_engine_presence e w :
  let r := health_check_status e w in
  r.2 = (if llm_available (state w)
         then PDict {[ "status" := PStr "ok";
                       "model_loaded" := PBool true;
                       "model_name" := PStr (resolved_model_name e) ]}
         else PDict {[ "status" := PStr "warning";
                       "model_loaded" := PBool false;
                       "message" := PStr "LLM not loaded or failed to load. Check server logs.";
                       "configured_model_path" := PStr (MODEL_PATH e) ]}) ∧
  state r.1 = state w ∧
  locked r.1 = locked w ∧
  ∃ logs, trace r.1 = trace w ++ logs ∧
          count_events is_acquire logs = 0%nat ∧
          count_events is_release logs = 0%nat.
Proof.
  unfold health_check_status, resolved_model_name. simpl.
  destruct (llm_available (state w)); simpl.
  - split.
    + destruct (str_truthy (MODEL_PATH e)), (path_exists e (MODEL_PATH e)); done.
    + do 2 (split; [done|]). eexists. rewrite <- app_assoc. split; [done|]. done.
  - do 3 (split; [done|]). eexists. rewrite <- app_assoc. split; [done|]. done.
Qed.

(** ** The completion handler, one request at a time *)

Section HandlerFacts.

Variable e : env.
Variable eng : Llama → blocking_task → exn + pyval.

(** The dependencies either hand over the engine silently or fail with 503
    and one error record; the engine is looked at first. *)
Lemma resolve_dependencies_cases s :
  match llm s, llm_lock s with
  | Some (Some l), Some (Some _) => resolve_dependencies s = ([], inr l)
  | Some (Some _), _ =>
      ∃ msg, resolve_dependencies s =
             ([Log ERROR msg], inl (HTTPException 503 detail_no_lock))
  | _, _ =>
      ∃ msg, resolve_dependencies s =
             ([Log ERROR msg], inl (HTTPException 503 detail_no_llm))
  end.
Proof.
  unfold resolve_dependencies, get_llm_instance, get_llm_lock.
  destruct (llm s) as [[l|]|], (llm_lock s) as [[k|]|]; simpl; eauto.
Qed.

Lemma validate_empty rq :
  messages rq = [] →
  validate rq =
    ([Log INFO "Received chat completion request.";
      Log WARNING "Received empty messages list for chat completion."],
     inl (HTTPException 400 "Messages list cannot be empty.")).
Proof. unfold validate. by intros ->. Qed.

Lemma validate_nonempty rq :
  messages rq ≠ [] →
  validate rq =
    ([Log INFO "Received chat completion request.";
      Log DEBUG "Chat completion request details: "],
     inr (model_dump <$> messages rq)).
Proof. unfold validate. by destruct (messages rq). Qed.

Lemma build_response_only_logs v : only_logs (build_response e v).1.
Proof.
  unfold build_response, new_ChatCompletionResponse, new_ChatCompletionChoice,
    new_ChatMessageOutput.
  auto 20 with logs.
Qed.

(** The events of [after_inference] are log records: the lock is not
    touched between the engine's return and the exit of [async with]. *)
Lemma after_inference_only_logs result : only_logs (after_inference e result).1.
Proof.
  unfold after_inference.
  apply only_logs_try.
  - apply only_logs_bind; [auto with logs|]. intros v.
    apply only_logs_bind; [auto with logs|]. intros _.
    destruct (negb (is_dict v)); [auto with logs|].
    apply only_logs_bind; [apply build_response_only_logs | auto with logs].
  - intros x. destruct (is_HTTPException x), (is_Exception x); auto with logs.
Qed.

(** A request that finds engine and lock, carries messages and meets a free
    lock goes through the five steps without waiting; the events it leaves
    and its outcome are determined by the engine's result. *)
Lemma serve_loaded w rq l :
  llm (state w) = Some (Some l) →
  lock_available (state w) = true →
  locked w = false →
  messages rq ≠ [] →
  let r := after_inference e (eng l (call_of rq)) in
  serve e eng w rq =
    ({| state := state w; locked := false;
        trace := trace w ++
          [Log INFO "Received chat completion request.";
           Log DEBUG "Chat completion request details: ";
           LockAcquire; Log INFO "Acquired lock.";
           Log INFO "Offloading LLM inference to thread pool executor.";
           EngineCall (call_of rq)] ++ r.1 ++ [LockRelease] |},
     Finished (to_outcome r.2)).
Proof.
  intros Hllm Hlock Hfree Hmsg r.
  pose proof (resolve_dependencies_cases (state w)) as Hdeps.
  rewrite Hllm in Hdeps. unfold lock_available in Hlock.
  destruct (llm_lock (state w)) as [[k|]|] eqn:Hk; try done.
  unfold serve, run, new_task. cbn [task_step at_pc].
  rewrite Hdeps. cbn [fst snd goto at_pc request_data task_step].
  rewrite (validate_nonempty rq Hmsg). cbn [fst snd goto at_pc request_data task_step].
  rewrite !locked_emit, Hfree. cbn [fst snd goto at_pc request_data task_step].
  fold (call_of rq). fold r.
  unfold emit, set_locked. cbn [state locked trace].
  f_equal. f_equal. rewrite app_nil_r, <- !app_assoc. reflexivity.
Qed.

(** With the engine or the lock missing the request ends in its first step. *)
Lemma serve_unavailable w rq :
  llm_available (state w) && lock_available (state w) = false →
  ∃ msg,
    task_step e eng w (new_task rq) =
      Some (emit [Log ERROR msg] w,
            goto (new_task rq)
              (Finished (Raised (HTTPException 503
                 (if llm_available (state w) then detail_no_lock else detail_no_llm))))) ∧
    serve e eng w rq =
      (emit [Log ERROR msg] w,
       Finished (Raised (HTTPException 503
         (if llm_available (state w) then detail_no_lock else detail_no_llm)))).
Proof.
  intros Hun.
  pose proof (resolve_dependencies_cases (state w)) as Hdeps.
  unfold llm_available, lock_available in *.
  unfold serve, run, new_task. cbn [task_step at_pc].
  destruct (llm (state w)) as [[l|]|], (llm_lock (state w)) as [[k|]|];
    try done; destruct Hdeps as [msg ->]; exists msg; done.
Qed.

(** With engine and lock present, an empty message list ends the request in
    the handler's validation, before the lock is looked at. *)
Lemma serve_no_messages w rq :
  llm_available (state w) && lock_available (state w) = true →
  messages rq = [] →
  serve e eng w rq =
    (emit [Log INFO "Received chat completion request.";
           Log WARNING "Received empty messages list for chat completion."] w,
     Finished (Raised (HTTPException 400 "Messages list cannot be empty."))).
Proof.
  intros Hav Hmsg.
  pose proof (resolve_dependencies_cases (state w)) as Hdeps.
  unfold llm_available, lock_available in *.
  destruct (llm (state w)) as [[l|]|], (llm_lock (state w)) as [[k|]|]; try done.
  unfold serve, run, new_task. cbn [task_step at_pc].
  rewrite Hdeps. cbn [fst snd goto at_pc request_data task_step].
  rewrite (validate_empty rq Hmsg). cbn [fst snd goto at_pc request_data task_step].
  rewrite emit_emit. reflexivity.
Qed.

(** Served alone on a free lock, a request always finishes and leaves the
    lock free. *)
Lemma serve_finishes w rq :
  locked w = false →
  ∃ o, (serve e eng w rq).2 = Finished o ∧ locked (serve e eng w rq).1 = false.
Proof.
  intros Hfree.
  destruct (llm_available (state w) && lock_available (state w)) eqn:Hav.
  - destruct (messages rq) as [|m ms] eqn:Hmsg.
    + rewrite (serve_no_messages w rq Hav Hmsg). eauto.
    + apply andb_prop in Hav as [Hllm Hlock].
      unfold llm_available in Hllm.
      destruct (llm (state w)) as [[l|]|] eqn:Hl; try done.
      rewrite (serve_loaded w rq l); [eauto | done.. | by rewrite Hmsg].
  - destruct (serve_unavailable w rq Hav) as (msg & _ & ->). eauto.
Qed.

(** What the two [except] clauses do with an exception raised by the
    engine call. *)
Lemma after_inference_engine_raises x :
  after_inference e (inl x) =
    if is_HTTPException x then ([], inl x)
    else if is_Exception x then
      ([Log EXCEPTION "An unexpected error occurred during chat completion: "], inr None)
    else ([], inl x).
Proof.
  unfold after_inference, try_except. simpl.
  by destruct (is_HTTPException x), (is_Exception x).
Qed.

(** A result that is not a dict is answered with the 500 error. *)
Lemma after_inference_not_a_dict v :
  is_dict v = false →
  after_inference e (inr v) =
    ([Log INFO "LLM processing completed.";
      Log ERROR "Unexpected LLM response structure: "],
     inl (HTTPException 500 "Invalid response structure from LLM.")).
Proof.
  intros Hv. unfold after_inference, try_except. simpl. by rewrite Hv.
Qed.

(** A dict of the expected structure is turned into the response, the
    missing fields taking their defaults. *)
Lemma after_inference_expected d fc m :
  expected_result d fc m →
  after_inference e (inr (PDict d)) =
    ([Log INFO "LLM processing completed.";
      Log INFO "Successfully generated chat completion response."],
     inr (Some
       {| id := text_or ("chatcmpl-" +:+ pretty (time_now e)) (d !! "id");
          created := int_or (time_now e) (d !! "created");
          model := response_model_name e;
          choices :=
            [{| index := 0;
                message := {| out_role := text_or "assistant" (m !! "role");
                              out_content := text_or "" (m !! "content") |};
                finish_reason := text_or "stop" (fc !! "finish_reason") |}] |})).
Proof.
  intros ([rest Hch] & Hmsg & Hrole & Hcontent & Hfin & Hid & Hcreated).
  unfold after_inference, try_except, build_response. simpl.
  rewrite Hch. simpl. rewrite Hmsg. simpl.
  unfold text_if_present, int_if_present in *.
  destruct (m !! "role") as [[]|]; try done;
  destruct (m !! "content") as [[]|]; try done;
  destruct (fc !! "finish_reason") as [[]|]; try done;
  destruct (d !! "id") as [[]|]; try done;
  destruct (d !! "created") as [[]|]; try done.
Qed.

End HandlerFacts.

(** C4: with the engine or the gate absent every request, whatever it
    carries and whether or not the lock is held, ends in its first step with
    the 503 error; nothing waits, the lock is neither acquired nor released,
    the engine is not called, and with the engine absent the error is the
    one of [get_llm_instance], raised before the lock is even looked up. *)
Theorem absent_engine_or_gate_is_503 e eng w rq :
  llm_available (state w) = false ∨ lock_available (state w) = false →
  ∃ evs,
    task_step e eng w (new_task rq) =
      Some (emit evs w,
            goto (new_task rq)
              (Finished (Raised (HTTPException 503
                 (if llm_available (state w) then detail_no_lock else detail_no_llm))))) ∧
    serve e eng w rq =
      (emit evs w,
       Finished (Raised (HTTPException 503
         (if llm_available (state w) then detail_no_lock else detail_no_llm)))) ∧
    count_events is_acquire evs = 0%nat ∧
    count_events is_release evs = 0%nat ∧
    count_events is_engine_call evs = 0%nat.
Proof.
  intros Habsent.
  assert (Hun : llm_available (state w) && lock_available (state w) = false).
  { destruct Habsent as [-> | ->]; [done | apply andb_false_r]. }
  destruct (serve_unavailable e eng w rq Hun) as (msg & Hstep & Hserve).
  exists [Log ERROR msg]. done.
Qed.

(** A request with messages, sent to a process whose artifact was missing at
    startup, while the (absent) lock cannot be held. *)
Lemma absent_engine_or_gate_is_503_witness :
  ∃ evs,
    task_step Samples.not_on_disk Samples.canned Samples.degraded (new_task Samples.hello) =
      Some (emit evs Samples.degraded,
            goto (new_task Samples.hello)
              (Finished (Raised (HTTPException 503 detail_no_llm)))) ∧
    serve Samples.not_on_disk Samples.canned Samples.degraded Samples.hello =
      (emit evs Samples.degraded,
       Finished (Raised (HTTPException 503 detail_no_llm))) ∧
    count_events is_acquire evs = 0%nat ∧
    count_events is_release evs = 0%nat ∧
    count_events is_engine_call evs = 0%nat.
Proof.
  apply (absent_engine_or_gate_is_503 Samples.not_on_disk Samples.canned
           Samples.degraded Samples.hello).
  left. reflexivity.
Defined.

(** The order of the checks met by a request with an empty message list:
    the dependencies come before the handler's validation, so the answer is
    503 when the engine is absent, 503 when the gate is absent, and
    otherwise the 400 error, whatever the other fields are and whether or
    not the lock is held. *)
Theorem empty_messages_after_dependencies e eng w rq :
  messages rq = [] →
  (serve e eng w rq).2 =
    Finished (Raised
      (if negb (llm_available (state w)) then HTTPException 503 detail_no_llm
       else if negb (lock_available (state w)) then HTTPException 503 detail_no_lock
       else HTTPException 400 "Messages list cannot be empty.")) ∧
  locked (serve e eng w rq).1 = locked w ∧
  ∃ evs, trace (serve e eng w rq).1 = trace w ++ evs ∧
         count_events is_acquire evs = 0%nat ∧
         count_events is_engine_call evs = 0%nat.
Proof.
  intros Hmsg.
  destruct (llm_available (state w) && lock_available (state w)) eqn:Hav.
  - rewrite (serve_no_messages e eng w rq Hav Hmsg).
    apply andb_prop in Hav as [-> ->]. simpl.
    do 2 (split; [done|]). by eexists.
  - destruct (serve_unavailable e eng w rq Hav) as (msg & _ & ->).
    simpl. destruct (llm_available (state w)); simpl in *.
    + rewrite Hav. simpl. do 2 (split; [done|]). by eexists.
    + do 2 (split; [done|]). by eexists.
Qed.

(** The empty request of the integration test, on a loaded process. *)
Lemma empty_messages_after_dependencies_witness :
  (serve Samples.on_disk Samples.canned Samples.loaded Samples.no_messages).2 =
    Finished (Raised (HTTPException 400 "Messages list cannot be empty.")) ∧
  locked (serve Samples.on_disk Samples.canned Samples.loaded Samples.no_messages).1 =
    locked Samples.loaded ∧
  ∃ evs, trace (serve Samples.on_disk Samples.canned Samples.loaded Samples.no_messages).1 =
           trace Samples.loaded ++ evs ∧
         count_events is_acquire evs = 0%nat ∧
         count_events is_engine_call evs = 0%nat.
Proof.
  apply (empty_messages_after_dependencies Samples.on_disk Samples.canned
           Samples.loaded Samples.no_messages).
  reflexivity.
Defined.

(** C5, at the failing input: on a process whose engine is absent, the
    request with the empty message list is answered with the 503 of
    [get_llm_instance], not with the 400 the claim and the integration test
    ask for. *)
Lemma empty_messages_on_degraded_process_is_503 :
  (serve Samples.not_on_disk Samples.canned Samples.degraded Samples.no_messages).2 =
    Finished (Raised (HTTPException 503 detail_no_llm)) ∧
  (serve Samples.not_on_disk Samples.canned Samples.degraded Samples.no_messages).2 ≠
    Finished (Raised (HTTPException 400 "Messages list cannot be empty.")).
Proof. split; [reflexivity | discriminate]. Qed.

(** C2: a request inside the critical section, whatever the engine then
    returns or raises, is finished two steps later; on the way the lock is
    released exactly once, as the last event of the request, and never
    acquired again, so that the lock is free afterwards and any request
    served next finishes instead of waiting. *)
Theorem gate_released_exactly_once e eng w rq l ms rq' :
  let t := {| request_data := rq; at_pc := GateAcquired l ms |} in
  let r := run e eng 2 w t in
  ∃ o evs,
    at_pc r.2 = Finished o ∧
    trace r.1 = trace w ++ evs ∧
    count_events is_release evs = 1%nat ∧
    count_events is_acquire evs = 0%nat ∧
    last evs = Some LockRelease ∧
    locked r.1 = false ∧
    state r.1 = state w ∧
    ∃ o', (serve e eng r.1 rq').2 = Finished o'.
Proof.
  intros t r. subst t r. unfold run. cbn [task_step at_pc request_data goto].
  set (call := {| kw_messages := ms; kw_temperature := temperature rq;
                  kw_max_tokens := max_tokens rq; kw_top_p := top_p rq;
                  kw_stop := stop rq |}).
  set (a := after_inference e (eng l call)).
  destruct (only_logs_counts a.1 (after_inference_only_logs e _)) as (Hacq & Hrel & _).
  exists (to_outcome a.2),
    ([Log INFO "Offloading LLM inference to thread pool executor."; EngineCall call]
       ++ a.1 ++ [LockRelease]).
  cbn [fst snd at_pc trace locked state emit set_locked].
  split; [done|]. split; [by rewrite <- !app_assoc|].
  split; [by rewrite !count_events_app, Hrel|].
  split; [by rewrite !count_events_app, Hacq|].
  split; [by rewrite !app_assoc, last_snoc|].
  do 2 (split; [done|]).
  edestruct (serve_finishes e eng) as (o' & Ho' & _); [|by eauto]. done.
Qed.

(** From arrival to the end: on a loaded process with a free lock, a request
    with messages acquires the lock once, calls the engine once and
    releases the lock once, whatever the engine does. *)
Lemma serve_acquires_and_releases_once e eng w rq :
  llm_available (state w) && lock_available (state w) = true →
  locked w = false →
  messages rq ≠ [] →
  ∃ o evs,
    (serve e eng w rq).2 = Finished o ∧
    trace (serve e eng w rq).1 = trace w ++ evs ∧
    count_events is_acquire evs = 1%nat ∧
    count_events is_engine_call evs = 1%nat ∧
    count_events is_release evs = 1%nat ∧
    locked (serve e eng w rq).1 = false.
Proof.
  intros Hav Hfree Hmsg. apply andb_prop in Hav as [Hllm Hlock].
  unfold llm_available in Hllm.
  destruct (llm (state w)) as [[l|]|] eqn:Hl; try done.
  rewrite (serve_loaded e eng w rq l Hl Hlock Hfree Hmsg).
  set (a := after_inference e (eng l (call_of rq))).
  destruct (only_logs_counts a.1 (after_inference_only_logs e _)) as (Hacq & Hrel & Hcall).
  eexists _, _. cbn [fst snd trace locked].
  split; [done|]. split; [done|].
  rewrite !count_events_app, Hacq, Hrel, Hcall. done.
Qed.

(** An engine answering with something that is not a dict: the 500 error,
    with an error record. *)
Lemma serve_not_a_dict_is_500 e eng w rq l v :
  llm (state w) = Some (Some l) →
  lock_available (state w) = true →
  locked w = false →
  messages rq ≠ [] →
  eng l (call_of rq) = inr v →
  is_dict v = false →
  (serve e eng w rq).2 =
    Finished (Raised (HTTPException 500 "Invalid response structure from LLM.")) ∧
  ∃ evs, trace (serve e eng w rq).1 = trace w ++ evs ∧
         count_events is_failure_log evs = 1%nat.
Proof.
  intros Hl Hlock Hfree Hmsg Heng Hv.
  rewrite (serve_loaded e eng w rq l Hl Hlock Hfree Hmsg).
  rewrite Heng, (after_inference_not_a_dict e v Hv). cbn [fst snd trace to_outcome].
  split; [done|]. by eexists.
Qed.

(** An engine raising an ordinary exception: the exception is logged and
    the handler returns None; no HTTP error is raised. *)
Lemma serve_engine_exception_returns_none e eng w rq l x :
  llm (state w) = Some (Some l) →
  lock_available (state w) = true →
  locked w = false →
  messages rq ≠ [] →
  eng l (call_of rq) = inl x →
  is_HTTPException x = false →
  is_Exception x = true →
  (serve e eng w rq).2 = Finished (Returned None) ∧
  ∃ evs, trace (serve e eng w rq).1 = trace w ++ evs ∧
         count_events is_failure_log evs = 1%nat.
Proof.
  intros Hl Hlock Hfree Hmsg Heng Hhttp Hexc.
  rewrite (serve_loaded e eng w rq l Hl Hlock Hfree Hmsg).
  rewrite Heng, after_inference_engine_raises, Hhttp, Hexc.
  cbn [fst snd trace to_outcome].
  split; [done|]. by eexists.
Qed.

(** With an engine that raises during generation, and with an engine that
    returns a dict without "choices", the coroutine logs the failure and
    returns None. *)
Theorem unexpected_failure_returns_none :
  (serve Samples.on_disk Samples.broken Samples.loaded Samples.hello).2 =
    Finished (Returned None) ∧
  (serve Samples.on_disk Samples.shapeless Samples.loaded Samples.hello).2 =
    Finished (Returned None) ∧
  count_events is_failure_log
    (trace (serve Samples.on_disk Samples.broken Samples.loaded Samples.hello).1) = 1%nat ∧
  count_events is_failure_log
    (trace (serve Samples.on_disk Samples.shapeless Samples.loaded Samples.hello).1) = 1%nat.
Proof. repeat split; vm_compute; reflexivity. Qed.

(** C6: when the engine answers every call with a dict of the expected
    structure, a request with messages served on a loaded process with a
    free lock gets a response with one choice of index 0, built from the
    first choice of the dict: role, content and finish_reason are the
    strings found there, and "assistant", the empty string and "stop" when
    the key is missing.  In the spec's scenario the content is "hi there"
    and the finish_reason is "stop". *)
Theorem response_fills_defaults e eng w rq l d fc m :
  llm (state w) = Some (Some l) →
  lock_available (state w) = true →
  locked w = false →
  messages rq ≠ [] →
  (∀ call, eng l call = inr (PDict d)) →
  expected_result d fc m →
  (serve e eng w rq).2 =
    Finished (Returned (Some
      {| id := text_or ("chatcmpl-" +:+ pretty (time_now e)) (d !! "id");
         created := int_or (time_now e) (d !! "created");
         model := response_model_name e;
         choices :=
           [{| index := 0;
               message := {| out_role := text_or "assistant" (m !! "role");
                             out_content := text_or "" (m !! "content") |};
               finish_reason := text_or "stop" (fc !! "finish_reason") |}] |})) ∧
  (serve Samples.on_disk Samples.canned Samples.loaded Samples.hello).2 =
    Finished (Returned (Some
      {| id := "chatcmpl-1700000000";
         created := 1700000000;
         model := "mistral-7b-instruct-v0.1.Q4_K_M.gguf";
         choices :=
           [{| index := 0;
               message := {| out_role := "assistant"; out_content := "hi there" |};
               finish_reason := "stop" |}] |})).
Proof.
  intros Hl Hlock Hfree Hmsg Heng Hexp. split.
  - rewrite (serve_loaded e eng w rq l Hl Hlock Hfree Hmsg).
    rewrite Heng, (after_inference_expected e d fc m Hexp). done.
  - vm_compute. reflexivity.
Qed.

(** The scenario of the spec: the canned result has no "finish_reason",
    no "id" and no "created". *)
Lemma response_fills_defaults_witness :
  (serve Samples.on_disk Samples.canned Samples.loaded Samples.hello).2 =
    Finished (Returned (Some
      {| id := "chatcmpl-1700000000";
         created := 1700000000;
         model := "mistral-7b-instruct-v0.1.Q4_K_M.gguf";
         choices :=
           [{| index := 0;
               message := {| out_role := "assistant"; out_content := "hi there" |};
               finish_reason := "stop" |}] |})) ∧
  (serve Samples.on_disk Samples.canned Samples.loaded Samples.hello).2 =
    Finished (Returned (Some
      {| id := "chatcmpl-1700000000";
         created := 1700000000;
         model := "mistral-7b-instruct-v0.1.Q4_K_M.gguf";
         choices :=
           [{| index := 0;
               message := {| out_role := "assistant"; out_content := "hi there" |};
               finish_reason := "stop" |}] |})).
Proof.
  apply (response_fills_defaults Samples.on_disk Samples.canned Samples.loaded
           Samples.hello Samples.engine Samples.canned_result Samples.canned_choice
           Samples.canned_message).
  - reflexivity.
  - reflexivity.
  - reflexivity.
  - discriminate.
  - intros call. reflexivity.
  - split; [exists []; reflexivity|]. repeat split; reflexivity.
Defined.

(** ** Concurrent requests *)

Section Serialization.

Variable e : env.
Variable eng : Llama → blocking_task → exn + pyval.

Lemma count_tasks_cons p t ts :
  count_tasks p (t :: ts) = ((if p t then 1 else 0) + count_tasks p ts)%nat.
Proof.
  unfold count_tasks. rewrite filter_cons.
  destruct (p t); case_decide; done.
Qed.

(** Replacing one task moves the count by that task's contribution. *)
Lemma count_tasks_insert p ts i t t' :
  ts !! i = Some t →
  (count_tasks p (<[i := t']> ts) + (if p t then 1 else 0) =
   count_tasks p ts + (if p t' then 1 else 0))%nat.
Proof.
  revert i. induction ts as [|u ts IH]; intros i Hi; [done|].
  destruct i as [|i]; simpl in *.
  - injection Hi as ->. rewrite !count_tasks_cons. lia.
  - rewrite !count_tasks_cons. specialize (IH i Hi). lia.
Qed.

Lemma count_tasks_member p ts i t :
  ts !! i = Some t → p t = true → (1 ≤ count_tasks p ts)%nat.
Proof.
  revert i. induction ts as [|u ts IH]; intros i Hi Hp; [done|].
  rewrite count_tasks_cons. destruct i as [|i]; simpl in *.
  - injection Hi as ->. rewrite Hp. lia.
  - specialize (IH i Hi Hp). lia.
Qed.

Lemma count_invoking_le_holders ts :
  (count_tasks is_invoking ts ≤ count_tasks holds_gate ts)%nat.
Proof.
  induction ts as [|t ts IH]; [done|].
  rewrite !count_tasks_cons.
  assert ((if is_invoking t then 1 else 0) ≤ (if holds_gate t then 1 else 0))%nat.
  { unfold is_invoking, holds_gate. destruct (at_pc t); lia. }
  lia.
Qed.

Lemma submit_consistent w rqs :
  locked w = false → gate_consistent (submit w rqs).
Proof.
  intros Hfree. unfold gate_consistent, submit. simpl. rewrite Hfree.
  induction rqs as [|rq rqs IH]; [done|].
  rewrite fmap_cons, count_tasks_cons. by rewrite IH.
Qed.

(** Each kind of step keeps the flag and the critical section in line:
    entering needs a clear flag and sets it, leaving clears it, and the
    other steps touch neither. *)
Lemma resume_consistent s i :
  gate_consistent s → gate_consistent (resume e eng s i).
Proof.
  unfold gate_consistent, resume. intros Hinv.
  destruct (tasks s !! i) as [t|] eqn:Hi; [|done].
  assert (Hmove : ∀ p, (count_tasks holds_gate (<[i := goto t p]> (tasks s)) +
                          (if holds_gate t then 1 else 0) =
                        count_tasks holds_gate (tasks s) +
                          (if holds_gate (goto t p) then 1 else 0))%nat).
  { intros p. by apply count_tasks_insert. }
  unfold task_step.
  destruct (at_pc t) as [|l|l ms|l ms|l call|o] eqn:Hpc.
  - (* Arrived *)
    simpl. match goal with |- context [goto t ?p] => specialize (Hmove p) end.
    replace (holds_gate t) with false in Hmove by (unfold holds_gate; by rewrite Hpc).
    unfold holds_gate at 3 in Hmove. simpl in Hmove.
    destruct (resolve_dependencies (state (shared s))).2; simpl in *; lia.
  - (* Received *)
    simpl. match goal with |- context [goto t ?p] => specialize (Hmove p) end.
    replace (holds_gate t) with false in Hmove by (unfold holds_gate; by rewrite Hpc).
    unfold holds_gate at 3 in Hmove. simpl in Hmove.
    destruct (validate (request_data t)).2; simpl in *; lia.
  - (* Validated: the lock is taken only when free *)
    destruct (locked (shared s)) eqn:Hlk; [by rewrite Hlk|]. simpl.
    specialize (Hmove (GateAcquired l ms)).
    replace (holds_gate t) with false in Hmove by (unfold holds_gate; by rewrite Hpc).
    unfold holds_gate at 3 in Hmove. simpl in Hmove. lia.
  - (* GateAcquired *)
    simpl. match goal with |- context [goto t ?p] => specialize (Hmove p) end.
    replace (holds_gate t) with true in Hmove by (unfold holds_gate; by rewrite Hpc).
    unfold holds_gate at 3 in Hmove. simpl in Hmove. lia.
  - (* Invoking: the holder leaves and clears the flag *)
    simpl. match goal with |- context [goto t ?p] => specialize (Hmove p) end.
    replace (holds_gate t) with true in Hmove by (unfold holds_gate; by rewrite Hpc).
    unfold holds_gate at 3 in Hmove. simpl in Hmove.
    assert (Hone : (1 ≤ count_tasks holds_gate (tasks s))%nat).
    { apply (count_tasks_member _ _ i t Hi). unfold holds_gate. by rewrite Hpc. }
    destruct (locked (shared s)); lia.
  - (* Finished *)
    done.
Qed.

Lemma exec_consistent schedule s :
  gate_consistent s → gate_consistent (exec e eng schedule s).
Proof.
  revert s. induction schedule as [|i schedule IH]; intros s Hinv; [done|].
  simpl. apply IH, resume_consistent, Hinv.
Qed.

End Serialization.

(** C1: take any number of requests, more than one, submitted to a process
    with the engine present and the gate free, and let the event loop
    resume them in any order, any number of times: in the state reached, at
    most one request is awaiting the engine's generate call. *)
Theorem at_most_one_invoking e eng w rqs schedule :
  llm_available (state w) = true →
  locked w = false →
  (1 < length rqs)%nat →
  (count_tasks is_invoking (tasks (exec e eng schedule (submit w rqs))) ≤ 1)%nat.
Proof.
  intros _ Hfree _.
  pose proof (exec_consistent e eng schedule _ (submit_consistent w rqs Hfree)) as Hinv.
  unfold gate_consistent in Hinv.
  pose proof (count_invoking_le_holders
                (tasks (exec e eng schedule (submit w rqs)))) as Hle.
  destruct (locked (shared (exec e eng schedule (submit w rqs)))); lia.
Qed.

(** Two requests; the first is resumed until it awaits the engine, then the
    second is resumed three times and is left waiting for the lock. *)
Lemma at_most_one_invoking_witness :
  (count_tasks is_invoking
     (tasks (exec Samples.on_disk Samples.canned [0; 0; 0; 0; 1; 1; 1]%nat
               (submit Samples.loaded [Samples.hello; Samples.hello]))) ≤ 1)%nat.
Proof.
  apply (at_most_one_invoking Samples.on_disk Samples.canned Samples.loaded
           [Samples.hello; Samples.hello] [0; 0; 0; 0; 1; 1; 1]%nat).
  - reflexivity.
  - reflexivity.
  - simpl. lia.
Defined.

(** In that state the first request is invoking and the second waits. *)
Example one_invoking_one_waiting :
  at_pc <$> tasks (exec Samples.on_disk Samples.canned [0; 0; 0; 0; 1; 1; 1]%nat
                     (submit Samples.loaded [Samples.hello; Samples.hello])) =
  [Invoking Samples.engine (call_of Samples.hello);
   Validated Samples.engine (model_dump <$> messages Samples.hello)].
Proof. vm_compute. reflexivity. Qed.

(** ** The chat client *)

Section ClientFacts.

Import Client.

Variable requests_post : string → payload → Z → post_result.

Lemma last_is_user_snoc h text :
  last_is_user (h ++ [{| role := "user"; content := PStr text |}]) = true.
Proof. unfold last_is_user. by rewrite last_snoc. Qed.

Lemma revert_after_add text c :
  conversation_history (_revert_last_user_message (add_user_message text c)) =
  conversation_history c.
Proof.
  unfold _revert_last_user_message, add_user_message. simpl.
  rewrite last_is_user_snoc. simpl. apply removelast_last.
Qed.

(** Subscripting the decoded body the way the client does succeeds exactly
    on the structure [classify] looks for; every failure on the way is an
    ordinary exception. *)
Lemma body_content_cases (body : pyval) :
  match classify (PostReturns 200 (inr body)) with
  | Answer v =>
      (all_choices ← getitem body (KStr "choices");
       first_choice ← getitem all_choices (KInt 0);
       assistant_message_data ← getitem first_choice (KStr "message");
       getitem assistant_message_data (KStr "content")) = inr v
  | GatewayError =>
      ∃ x, (all_choices ← getitem body (KStr "choices");
            first_choice ← getitem all_choices (KInt 0);
            assistant_message_data ← getitem first_choice (KStr "message");
            getitem assistant_message_data (KStr "content")) = inl x ∧
           is_Exception x = true
  | Interrupted _ => False
  end.
Proof.
  destruct body as [| | | | |l|d]; simpl; eauto.
  destruct (d !! "choices") as [ch|]; simpl; eauto.
  destruct ch as [| | | |s|l|d']; simpl; eauto.
  - destruct s; simpl; eauto.
  - destruct l as [|fst rest]; simpl; eauto.
    unfold seq_index. simpl.
    destruct fst as [| | | |s|l'|fc]; simpl; eauto.
    destruct (fc !! "message") as [msg|]; simpl; eauto.
    destruct msg as [| | | |s|l'|m]; simpl; eauto.
    destruct (m !! "content"); simpl; eauto.
Qed.

Lemma fetch_content_cases pl c :
  match classify (requests_post (service_url c) pl (request_timeout c)) with
  | Answer v => fetch_content requests_post pl c = inr v
  | GatewayError =>
      ∃ x, fetch_content requests_post pl c = inl x ∧ is_Exception x = true
  | Interrupted x =>
      fetch_content requests_post pl c = inl x ∧ is_Exception x = false
  end.
Proof.
  unfold fetch_content.
  destruct (requests_post (service_url c) pl (request_timeout c)) as [x|status json].
  - simpl. destruct (is_Exception x) eqn:Hx; eauto.
  - unfold classify at 1. unfold raise_for_status.
    destruct ((400 <=? status) && (status <? 600)); [simpl; eauto|].
    destruct json as [x|body].
    + simpl. destruct (is_Exception x) eqn:Hx; eauto.
    + pose proof (body_content_cases body) as Hbody.
      unfold classify in Hbody at 1. simpl in Hbody. simpl.
      match goal with |- match ?r with _ => _ end => destruct r end;
        [exact Hbody | exact Hbody | done].
Qed.

End ClientFacts.

(** C9: after a user turn was added, a call of [get_llm_response] sends one
    request.  When the gateway answers with the expected structure, the
    content is returned and one assistant message is appended after the
    user turn.  On any error of the gateway (the request fails, the status
    is an HTTP error, the body cannot be decoded or has another structure)
    an error text is returned and the history is what it was before the
    user turn was added.  An interruption that is not an [Exception] is not
    caught and leaves the history alone. *)
Theorem history_rolls_back_on_gateway_error requests_post c text temperature max_tokens :
  let c1 := Client.add_user_message text c in
  let pl := {| Client.p_messages := Client.conversation_history c1;
               Client.p_temperature := temperature;
               Client.p_max_tokens := max_tokens |} in
  let r := Client.get_llm_response requests_post c1 temperature max_tokens in
  Client.sent r = [pl] ∧
  match classify (requests_post (Client.service_url c1) pl (Client.request_timeout c1)) with
  | Answer v =>
      Client.returned r = inr v ∧
      Client.conversation_history (Client.client_after r) =
        Client.conversation_history c ++
          [{| Client.role := "user"; Client.content := PStr text |};
           {| Client.role := "assistant"; Client.content := v |}]
  | GatewayError =>
      (Client.returned r = inr (PStr "Error: Received an invalid response from the AI.") ∨
       Client.returned r = inr (PStr "Error: An unexpected problem occurred.")) ∧
      Client.conversation_history (Client.client_after r) = Client.conversation_history c
  | Interrupted x =>
      Client.returned r = inl x ∧ Client.client_after r = c1
  end.
Proof.
  intros c1 pl r. subst r. unfold Client.get_llm_response.
  replace (Client.last_is_user (Client.conversation_history c1)) with true
    by (symmetry; apply last_is_user_snoc).
  simpl negb. cbv iota. fold pl.
  pose proof (fetch_content_cases requests_post pl c1) as Hcases.
  destruct (classify _) as [v| |x].
  - rewrite Hcases. simpl. split; [done|]. split; [done|].
    by rewrite <- app_assoc.
  - destruct Hcases as (x & -> & Hx).
    destruct (is_lookup_error x); [|rewrite Hx]; simpl;
      (split; [done|]); (split; [by eauto|]); apply revert_after_add.
  - destruct Hcases as [-> Hx].
    assert (is_lookup_error x = false) as -> by by destruct x.
    rewrite Hx. done.
Qed.

(** C10: when the history is empty or does not end with a user message,
    [get_llm_response] returns the client-error text, sends nothing and
    leaves the client as it is. *)
Theorem no_user_message_no_request requests_post c temperature max_tokens :
  Client.conversation_history c = [] ∨
  (∃ m, last (Client.conversation_history c) = Some m ∧ Client.role m ≠ "user") →
  Client.get_llm_response requests_post c temperature max_tokens =
    {| Client.returned :=
         inr (PStr "Error: Internal client error - no user message to respond to.");
       Client.client_after := c;
       Client.sent := [] |}.
Proof.
  intros Hpre. unfold Client.get_llm_response.
  assert (Client.last_is_user (Client.conversation_history c) = false) as ->; [|done].
  unfold Client.last_is_user.
  destruct Hpre as [-> | (m & -> & Hrole)]; [done|].
  by apply String.eqb_neq.
Qed.

(** The client of the unit test, right after its construction, and a client
    whose last message is the assistant's. *)
Lemma no_user_message_no_request_witness :
  Client.get_llm_response Samples.answering Samples.fresh_client (1 # 2)%Q 50 =
    {| Client.returned :=
         inr (PStr "Error: Internal client error - no user message to respond to.");
       Client.client_after := Samples.fresh_client;
       Client.sent := [] |} ∧
  Client.get_llm_response Samples.answering
    (Client.add_assistant_message (PStr "AI answer")
       (Client.add_user_message "User question" Samples.fresh_client)) (1 # 2)%Q 50 =
    {| Client.returned :=
         inr (PStr "Error: Internal client error - no user message to respond to.");
       Client.client_after :=
         Client.add_assistant_message (PStr "AI answer")
           (Client.add_user_message "User question" Samples.fresh_client);
       Client.sent := [] |}.
Proof.
  split.
  - apply (no_user_message_no_request Samples.answering Samples.fresh_client).
    left. reflexivity.
  - apply (no_user_message_no_request Samples.answering).
    right. eexists. split; [reflexivity|]. simpl. discriminate.
Defined.

(** The unit tests of the client: a good answer, and a body without
    "choices" after which the user turn is gone. *)
Example client_successful_call :
  let r := Client.get_llm_response Samples.answering
             (Client.add_user_message "What does AI stand for?" Samples.fresh_client)
             (1 # 2)%Q 50 in
  Client.returned r = inr (PStr "Artificial Intelligence.") ∧
  last (Client.conversation_history (Client.client_after r)) =
    Some {| Client.role := "assistant"; Client.content := PStr "Artificial Intelligence." |}.
Proof. split; reflexivity. Qed.

Example client_unreachable_gateway :
  let r := Client.get_llm_response Samples.unreachable
             (Client.add_user_message "Ask something." Samples.fresh_client)
             (1 # 2)%Q 50 in
  Client.returned r = inr (PStr "Error: An unexpected problem occurred.") ∧
  Client.conversation_history (Client.client_after r) = [].
Proof. split; reflexivity. Qed.

(** * Further properties of the gateway *)

Section Steps.

Variable e : env.
Variable eng : Llama → blocking_task → exn + pyval.

Lemma only_logs_resolve_dependencies s : only_logs (resolve_dependencies s).1.
Proof.
  unfold resolve_dependencies, get_llm_instance, get_llm_lock.
  destruct (llm s) as [[l|]|], (llm_lock s) as [[k|]|]; auto 10 with logs.
Qed.

Lemma only_logs_validate rq : only_logs (validate rq).1.
Proof. unfold validate. destruct (messages rq); auto 10 with logs. Qed.

(** What one step does to the world and to the counters of lock events:
    [app.state] and the request are kept, the trace is extended, and each
    lock event is matched by the move of the request. *)
Lemma task_step_effect w t w' t' :
  task_step e eng w t = Some (w', t') →
  state w' = state w ∧
  request_data t' = request_data t ∧
  (steps_left (at_pc t') < steps_left (at_pc t))%nat ∧
  ∃ evs,
    trace w' = trace w ++ evs ∧
    (count_events is_acquire evs + (if is_gate_acquired t then 1 else 0) =
     count_events is_engine_call evs + (if is_gate_acquired t' then 1 else 0))%nat ∧
    (count_events is_engine_call evs + (if is_invoking t then 1 else 0) =
     count_events is_release evs + (if is_invoking t' then 1 else 0))%nat.
Proof.
  unfold task_step, is_gate_acquired, is_invoking.
  destruct (at_pc t) as [|l|l ms|l ms|l call|o] eqn:Hpc.
  - intros [= <- <-]. simpl.
    destruct (only_logs_counts _ (only_logs_resolve_dependencies (state w)))
      as (Ha & Hr & Hc).
    split; [done|]. split; [done|].
    split; [destruct (resolve_dependencies (state w)).2; simpl; lia|].
    eexists. split; [done|].
    rewrite Ha, Hr, Hc. destruct (resolve_dependencies (state w)).2; done.
  - intros [= <- <-]. simpl.
    destruct (only_logs_counts _ (only_logs_validate (request_data t)))
      as (Ha & Hr & Hc).
    split; [done|]. split; [done|].
    split; [destruct (validate (request_data t)).2; simpl; lia|].
    eexists. split; [done|].
    rewrite Ha, Hr, Hc. destruct (validate (request_data t)).2; done.
  - destruct (locked w); [done|]. intros [= <- <-]. simpl.
    do 2 (split; [done|]). split; [lia|]. eexists. split; done.
  - intros [= <- <-]. simpl.
    do 2 (split; [done|]). split; [lia|]. eexists. split; done.
  - intros [= <- <-]. simpl.
    destruct (only_logs_counts _ (after_inference_only_logs e (eng l call)))
      as (Ha & Hr & Hc).
    do 2 (split; [done|]). split; [lia|].
    eexists. split; [by rewrite <- app_assoc|].
    rewrite !count_events_app, Ha, Hr, Hc. done.
  - done.
Qed.

(** A request that is not finished can move, unless it waits for a held
    lock. *)
Lemma task_step_enabled w t :
  is_finished t = false →
  locked w = false ∨ holds_gate t = true →
  is_Some (task_step e eng w t).
Proof.
  unfold is_finished, holds_gate, task_step.
  destruct (at_pc t); try done; intros _ [Hfree | Hholds]; try done;
    rewrite ?Hfree; eauto.
Qed.

End Steps.

Section Systems.

Variable e : env.
Variable eng : Llama → blocking_task → exn + pyval.

Lemma resume_effect s i :
  let s' := resume e eng s i in
  state (shared s') = state (shared s) ∧
  request_data <$> tasks s' = request_data <$> tasks s ∧
  ∃ evs,
    trace (shared s') = trace (shared s) ++ evs ∧
    (count_events is_acquire evs + count_tasks is_gate_acquired (tasks s) =
     count_events is_engine_call evs + count_tasks is_gate_acquired (tasks s'))%nat ∧
    (count_events is_engine_call evs + count_tasks is_invoking (tasks s) =
     count_events is_release evs + count_tasks is_invoking (tasks s'))%nat.
Proof.
  unfold resume.
  assert (Hstay : state (shared s) = state (shared s) ∧
            request_data <$> tasks s = request_data <$> tasks s ∧
            ∃ evs, trace (shared s) = trace (shared s) ++ evs ∧
              (count_events is_acquire evs + count_tasks is_gate_acquired (tasks s) =
               count_events is_engine_call evs + count_tasks is_gate_acquired (tasks s))%nat ∧
              (count_events is_engine_call evs + count_tasks is_invoking (tasks s) =
               count_events is_release evs + count_tasks is_invoking (tasks s))%nat).
  { do 2 (split; [done|]). exists []. by rewrite app_nil_r. }
  destruct (tasks s !! i) as [t|] eqn:Hi; [|exact Hstay].
  destruct (task_step e eng (shared s) t) as [[w' t']|] eqn:Hstep; [|exact Hstay].
  destruct (task_step_effect e eng _ _ _ _ Hstep) as (Hst & Hrq & _ & evs & Htr & Ha & Hc).
  simpl. split; [done|]. split.
  - rewrite list_fmap_insert, Hrq. apply list_insert_id.
    by rewrite list_lookup_fmap, Hi.
  - exists evs. split; [done|].
    pose proof (count_tasks_insert is_gate_acquired (tasks s) i t t' Hi).
    pose proof (count_tasks_insert is_invoking (tasks s) i t t' Hi).
    lia.
Qed.

Lemma exec_effect schedule s :
  let s' := exec e eng schedule s in
  state (shared s') = state (shared s) ∧
  request_data <$> tasks s' = request_data <$> tasks s ∧
  ∃ evs,
    trace (shared s') = trace (shared s) ++ evs ∧
    (count_events is_acquire evs + count_tasks is_gate_acquired (tasks s) =
     count_events is_engine_call evs + count_tasks is_gate_acquired (tasks s'))%nat ∧
    (count_events is_engine_call evs + count_tasks is_invoking (tasks s) =
     count_events is_release evs + count_tasks is_invoking (tasks s'))%nat.
Proof.
  revert s. induction schedule as [|i schedule IH]; intros s; simpl.
  - do 2 (split; [done|]). exists []. by rewrite app_nil_r.
  - destruct (IH (resume e eng s i)) as (Hst & Hrq & evs2 & Htr2 & Ha2 & Hc2).
    destruct (resume_effect s i) as (Hst1 & Hrq1 & evs1 & Htr1 & Ha1 & Hc1).
    split; [congruence|]. split; [congruence|].
    exists (evs1 ++ evs2). split; [by rewrite Htr2, Htr1, app_assoc|].
    unfold exec in *. rewrite !count_events_app. lia.
Qed.

Lemma count_tasks_new p rqs :
  (∀ rq, p (new_task rq) = false) →
  count_tasks p (new_task <$> rqs) = 0%nat.
Proof.
  intros Hp. induction rqs as [|rq rqs IH]; [done|].
  by rewrite fmap_cons, count_tasks_cons, IH, Hp.
Qed.

End Systems.

(** Requests only read [app.state]: however many are submitted and however
    the event loop interleaves them, [app.state] stays what it was, every
    request stays in the system with its payload, and the events already
    recorded are kept, new ones being added after them. *)
Theorem requests_leave_app_state_alone e eng w rqs schedule :
  let s := exec e eng schedule (submit w rqs) in
  state (shared s) = state w ∧
  request_data <$> tasks s = rqs ∧
  ∃ evs, trace (shared s) = trace w ++ evs.
Proof.
  intros s.
  destruct (exec_effect e eng schedule (submit w rqs)) as (Hst & Hrq & evs & Htr & _).
  split; [done|]. split; [|by exists evs].
  fold s in Hrq. rewrite Hrq. unfold submit. simpl.
  rewrite <- list_fmap_compose. apply list_fmap_id.
Qed.

(** The books of the lock balance at every instant of every interleaving:
    among the events added since submission, the acquisitions are the
    engine calls plus the requests that hold the lock and have not yet
    called, and the engine calls are the releases plus the requests
    awaiting the engine.  So no engine call happens without the lock, and
    no release without a call. *)
Theorem lock_events_balance e eng w rqs schedule :
  let s := exec e eng schedule (submit w rqs) in
  ∃ evs,
    trace (shared s) = trace w ++ evs ∧
    count_events is_acquire evs =
      (count_events is_engine_call evs + count_tasks is_gate_acquired (tasks s))%nat ∧
    count_events is_engine_call evs =
      (count_events is_release evs + count_tasks is_invoking (tasks s))%nat.
Proof.
  intros s.
  destruct (exec_effect e eng schedule (submit w rqs))
    as (_ & _ & evs & Htr & Ha & Hc).
  exists evs. split; [done|]. fold s in Ha, Hc. unfold submit in Ha, Hc.
  simpl in Ha, Hc.
  rewrite (count_tasks_new is_gate_acquired rqs) in Ha by done.
  rewrite (count_tasks_new is_invoking rqs) in Hc by done.
  lia.
Qed.

Section Progress.

Variable e : env.
Variable eng : Llama → blocking_task → exn + pyval.

Lemma count_tasks_positive p ts :
  (1 ≤ count_tasks p ts)%nat → ∃ i t, ts !! i = Some t ∧ p t = true.
Proof.
  induction ts as [|u ts IH]; [unfold count_tasks; simpl; lia|].
  rewrite count_tasks_cons. destruct (p u) eqn:Hu.
  - intros _. by exists 0%nat, u.
  - intros Hpos. destruct IH as (i & t & Hi & Ht); [lia|]. by exists (S i), t.
Qed.

Lemma count_tasks_all p ts :
  count_tasks p ts = length ts ∨ ∃ i t, ts !! i = Some t ∧ p t = false.
Proof.
  induction ts as [|u ts IH]; [by left|].
  rewrite count_tasks_cons. destruct (p u) eqn:Hu.
  - destruct IH as [-> | (i & t & Hi & Ht)]; [by left|].
    right. by exists (S i), t.
  - right. by exists 0%nat, u.
Qed.

(** A request with messages on a held lock. *)
Lemma serve_held w rq l :
  llm (state w) = Some (Some l) →
  lock_available (state w) = true →
  locked w = true →
  messages rq ≠ [] →
  serve e eng w rq =
    (emit [Log INFO "Received chat completion request.";
           Log DEBUG "Chat completion request details: "] w,
     Validated l (model_dump <$> messages rq)).
Proof.
  intros Hllm Hlock Hheld Hmsg.
  pose proof (resolve_dependencies_cases (state w)) as Hdeps.
  rewrite Hllm in Hdeps. unfold lock_available in Hlock.
  destruct (llm_lock (state w)) as [[k|]|] eqn:Hk; try done.
  unfold serve, run, new_task. cbn [task_step at_pc].
  rewrite Hdeps. cbn [fst snd goto at_pc request_data task_step].
  rewrite (validate_nonempty rq Hmsg). cbn [fst snd goto at_pc request_data task_step].
  rewrite !locked_emit, Hheld. cbn [fst snd at_pc].
  by rewrite emit_emit.
Qed.

End Progress.

(** The gate cannot deadlock: after any interleaving of any requests
    submitted on a free lock, either every request is finished or some
    request can take its next step. *)
Theorem some_request_can_move e eng w rqs schedule :
  locked w = false →
  let s := exec e eng schedule (submit w rqs) in
  count_tasks is_finished (tasks s) = length (tasks s) ∨
  ∃ i t, tasks s !! i = Some t ∧ is_Some (task_step e eng (shared s) t).
Proof.
  intros Hfree s.
  pose proof (exec_consistent e eng schedule _ (submit_consistent w rqs Hfree)) as Hinv.
  fold s in Hinv. unfold gate_consistent in Hinv.
  destruct (count_tasks_all is_finished (tasks s)) as [Hall | (i & t & Hi & Ht)];
    [by left | right].
  destruct (locked (shared s)) eqn:Hlk.
  - destruct (count_tasks_positive holds_gate (tasks s)) as (j & u & Hj & Hu); [lia|].
    exists j, u. split; [done|]. apply task_step_enabled; [|by right].
    unfold holds_gate, is_finished in *. by destruct (at_pc u).
  - exists i, t. split; [done|]. apply task_step_enabled; [done | by left].
Qed.

(** Two requests, the first resumed until it holds the lock: the second
    may wait, the first can move. *)
Lemma some_request_can_move_witness :
  let s := exec Samples.on_disk Samples.canned [0; 0; 0; 1; 1; 1]%nat
             (submit Samples.loaded [Samples.hello; Samples.hello]) in
  count_tasks is_finished (tasks s) = length (tasks s) ∨
  ∃ i t, tasks s !! i = Some t ∧
         is_Some (task_step Samples.on_disk Samples.canned (shared s) t).
Proof.
  apply (some_request_can_move Samples.on_disk Samples.canned Samples.loaded
           [Samples.hello; Samples.hello] [0; 0; 0; 1; 1; 1]%nat).
  reflexivity.
Defined.

(** A request with messages that arrives while the lock is held passes the
    dependencies and the validation and then waits at [async with]: it has
    neither acquired the lock nor called the engine, and it is not answered
    with an error. *)
Theorem request_waits_for_held_gate e eng w rq l :
  llm (state w) = Some (Some l) →
  lock_available (state w) = true →
  locked w = true →
  messages rq ≠ [] →
  serve e eng w rq =
    (emit [Log INFO "Received chat completion request.";
           Log DEBUG "Chat completion request details: "] w,
     Validated l (model_dump <$> messages rq)).
Proof. apply serve_held. Qed.

Lemma request_waits_for_held_gate_witness :
  serve Samples.on_disk Samples.canned (set_locked true Samples.loaded) Samples.hello =
    (emit [Log INFO "Received chat completion request.";
           Log DEBUG "Chat completion request details: "]
       (set_locked true Samples.loaded),
     Validated Samples.engine (model_dump <$> messages Samples.hello)).
Proof.
  apply (request_waits_for_held_gate Samples.on_disk Samples.canned
           (set_locked true Samples.loaded) Samples.hello Samples.engine).
  - reflexivity.
  - reflexivity.
  - reflexivity.
  - discriminate.
Defined.

Section Interleavings.

Variable e : env.
Variable eng : Llama → blocking_task → exn + pyval.

Lemma run_stuck k w t :
  task_step e eng w t = None → run e eng k w t = (w, t).
Proof. intros Hstuck. destruct k; [done|]. simpl. by rewrite Hstuck. Qed.

(** Resuming the same request [k] times in a row is its run of [k] steps. *)
Lemma exec_replicate k s i t :
  tasks s !! i = Some t →
  exec e eng (replicate k i) s =
    {| shared := (run e eng k (shared s) t).1;
       tasks := <[i := (run e eng k (shared s) t).2]> (tasks s) |}.
Proof.
  revert s t. induction k as [|k IH]; intros s t Hi.
  - simpl. rewrite list_insert_id by done. by destruct s.
  - change (exec e eng (replicate (S k) i) s)
      with (exec e eng (replicate k i) (resume e eng s i)).
    assert (Hres : resume e eng s i =
              match task_step e eng (shared s) t with
              | Some (w', t') => {| shared := w'; tasks := <[i := t']> (tasks s) |}
              | None => s
              end) by (unfold resume; by rewrite Hi).
    rewrite Hres. simpl.
    destruct (task_step e eng (shared s) t) as [[w' t']|] eqn:Hstep.
    + rewrite (IH _ t'); simpl.
      * by rewrite list_insert_insert_eq.
      * apply list_lookup_insert_eq. by eapply lookup_lt_Some.
    + by rewrite (IH s t Hi), (run_stuck k _ _ Hstep).
Qed.

Lemma count_tasks_app p (a b : list task) :
  count_tasks p (a ++ b) = (count_tasks p a + count_tasks p b)%nat.
Proof. unfold count_tasks. by rewrite filter_app, length_app. Qed.

Lemma one_by_one_from served rest w :
  locked w = false →
  count_tasks is_finished served = length served →
  let s := exec e eng
             (flat_map (λ i, replicate 5 i) (seq (length served) (length rest)))
             {| shared := w; tasks := served ++ (new_task <$> rest) |} in
  count_tasks is_finished (tasks s) = (length served + length rest)%nat ∧
  locked (shared s) = false.
Proof.
  revert served w. induction rest as [|rq rest IH]; intros served w Hfree Hdone.
  - simpl. rewrite app_nil_r, Nat.add_0_r. done.
  - cbn [length seq flat_map fmap list_fmap]. unfold exec. rewrite foldl_app.
    fold (exec e eng (replicate 5 (length served))
            {| shared := w; tasks := served ++ new_task rq :: (new_task <$> rest) |}).
    rewrite (exec_replicate 5 _ (length served) (new_task rq))
      by (simpl; apply list_lookup_middle; done).
    cbn [shared tasks].
    rewrite insert_app_r_alt by lia. rewrite Nat.sub_diag. cbn [list_insert].
    destruct (serve_finishes e eng w rq Hfree) as (o & Hfin & Hlk).
    unfold serve in Hfin, Hlk. cbn [fst snd] in Hfin, Hlk.
    set (r := run e eng 5 w (new_task rq)) in *.
    specialize (IH (served ++ [r.2]) r.1 Hlk).
    rewrite length_app, Nat.add_1_r in IH. rewrite <- app_assoc in IH. simpl in IH.
    destruct IH as [Hcount Hfree'].
    + rewrite count_tasks_app, Hdone, count_tasks_cons.
      unfold is_finished at 1. rewrite Hfin. unfold count_tasks. simpl. lia.
    + unfold exec in *. split; [|exact Hfree'].
      etransitivity; [exact Hcount | lia].
Qed.

End Interleavings.

(** No request is left behind: when the requests submitted on a free lock
    are served one after the other, each resumed five times, all of them
    are finished and the lock is free again. *)
Theorem one_by_one_finishes_all e eng w rqs :
  locked w = false →
  let s := exec e eng (one_by_one (length rqs)) (submit w rqs) in
  count_tasks is_finished (tasks s) = length rqs ∧
  locked (shared s) = false.
Proof.
  intros Hfree.
  apply (one_by_one_from e eng [] rqs w Hfree). done.
Qed.

Lemma one_by_one_finishes_all_witness :
  let s := exec Samples.on_disk Samples.broken (one_by_one 3)
             (submit Samples.loaded [Samples.hello; Samples.no_messages; Samples.hello]) in
  count_tasks is_finished (tasks s) = 3%nat ∧ locked (shared s) = false.
Proof.
  apply (one_by_one_finishes_all Samples.on_disk Samples.broken Samples.loaded
           [Samples.hello; Samples.no_messages; Samples.hello]).
  reflexivity.
Defined.

(** ** Outcomes of the handler *)

Section Outcomes.

Variable e : env.
Variable eng : Llama → blocking_task → exn + pyval.

Lemma yields_bind {A B} (m : M A) (f : A → M B) E (P : A → Prop) (Q : B → Prop) :
  yields m E P → (∀ a, P a → yields (f a) E Q) → yields (m ≫= f) E Q.
Proof.
  unfold yields, mbind, M_bind. destruct m as [tr [x|a]]; simpl; [done|].
  intros HP Hf. specialize (Hf a HP). by destruct (f a) as [tr' r].
Qed.

Lemma yields_weaken {A} (m : M A) E (P Q : A → Prop) :
  yields m E P → (∀ a, P a → Q a) → yields m E Q.
Proof. unfold yields. destruct m.2; auto. Qed.

Lemma yields_getitem v k : yields (lift (getitem v k)) swallowed (λ _, True).
Proof.
  unfold yields, lift. simpl.
  destruct (getitem v k) as [x|y] eqn:Hget; [|done].
  revert Hget. unfold getitem, seq_index.
  repeat case_match; intros ?; simplify_eq; by split.
Qed.

Lemma yields_dict_get v k dflt : yields (lift (dict_get v k dflt)) swallowed (λ _, True).
Proof. unfold yields, lift, dict_get. simpl. destruct v; try done; by split. Qed.

Lemma yields_as_str v : yields (lift (as_str v)) swallowed (λ _, True).
Proof. unfold yields, lift, as_str. simpl. destruct v; try done; by split. Qed.

Lemma yields_as_int v : yields (lift (as_int v)) swallowed (λ _, True).
Proof. unfold yields, lift, as_int. simpl. destruct v; try done; by split. Qed.

(** Building the response fails only with exceptions that the handler
    swallows, and a response that is built has the configured model name
    and one choice of index 0. *)
Lemma build_response_yields v :
  yields (build_response e v) swallowed
    (λ resp, model resp = response_model_name e ∧
             ∃ ch, choices resp = [ch] ∧ index ch = 0).
Proof.
  unfold build_response.
  eapply yields_bind; [apply yields_getitem|]. intros all_choices _.
  eapply yields_bind; [apply yields_getitem|]. intros first_choice _.
  eapply yields_bind; [apply yields_getitem|]. intros llm_message _.
  eapply yields_bind; [apply yields_dict_get|]. intros role_v _.
  eapply yields_bind; [apply yields_dict_get|]. intros content_v _.
  eapply (yields_bind _ _ _ (λ _, True)).
  { unfold new_ChatMessageOutput.
    eapply yields_bind; [apply yields_as_str|]. intros r _.
    eapply yields_bind; [apply yields_as_str|]. intros c _. done. }
  intros response_message _.
  eapply yields_bind; [apply yields_dict_get|]. intros finish_v _.
  eapply (yields_bind _ _ _ (λ ch, index ch = 0)).
  { unfold new_ChatCompletionChoice.
    eapply yields_bind; [apply yields_as_str|]. intros f _. done. }
  intros choice Hindex.
  eapply (yields_bind _ _ _ (λ _, True)); [done|]. intros _ _.
  eapply yields_bind; [apply yields_dict_get|]. intros id_v _.
  eapply yields_bind; [apply yields_dict_get|]. intros created_v _.
  unfold new_ChatCompletionResponse.
  eapply yields_bind; [apply yields_as_str|]. intros i _.
  eapply yields_bind; [apply yields_as_int|]. intros c _.
  unfold yields, response_model_name. simpl. eauto.
Qed.

(** The outcomes of the code after the engine call, by cause. *)
Lemma after_inference_outcomes result :
  match to_outcome (after_inference e result).2 with
  | Raised x =>
      (result = inl x ∧ (is_HTTPException x = true ∨ is_Exception x = false)) ∨
      (x = HTTPException 500 "Invalid response structure from LLM." ∧
       ∃ v, result = inr v ∧ is_dict v = false)
  | Returned None =>
      (∃ x, result = inl x ∧ swallowed x) ∨ (∃ d, result = inr (PDict d))
  | Returned (Some resp) =>
      (∃ d, result = inr (PDict d)) ∧
      model resp = response_model_name e ∧
      ∃ ch, choices resp = [ch] ∧ index ch = 0
  end.
Proof.
  destruct result as [x|v].
  - rewrite after_inference_engine_raises.
    destruct (is_HTTPException x) eqn:Hh; simpl; [by eauto|].
    destruct (is_Exception x) eqn:Hx; simpl; [|by eauto].
    left. by exists x.
  - destruct (is_dict v) eqn:Hv.
    + destruct v; try done.
      pose proof (build_response_yields (PDict d)) as Hb.
      unfold yields in Hb. unfold after_inference, try_except. simpl.
      destruct (build_response e (PDict d)) as [tr [x|resp]]; simpl in *.
      * destruct Hb as [Hx Hh]. rewrite Hh, Hx. simpl. eauto.
      * split; [by eauto | done].
    + rewrite (after_inference_not_a_dict e v Hv). simpl. right. eauto.
Qed.

(** Where a request served alone ends, by the first check that decides. *)
Lemma serve_cases w rq :
  (llm_available (state w) && lock_available (state w) = false ∧
   (serve e eng w rq).2 =
     Finished (Raised (HTTPException 503
       (if llm_available (state w) then detail_no_lock else detail_no_llm)))) ∨
  (messages rq = [] ∧
   (serve e eng w rq).2 =
     Finished (Raised (HTTPException 400 "Messages list cannot be empty."))) ∨
  (∃ l, llm (state w) = Some (Some l) ∧ messages rq ≠ [] ∧ locked w = true ∧
        (serve e eng w rq).2 = Validated l (model_dump <$> messages rq)) ∨
  (∃ l, llm (state w) = Some (Some l) ∧ messages rq ≠ [] ∧ locked w = false ∧
        (serve e eng w rq).2 =
          Finished (to_outcome (after_inference e (eng l (call_of rq))).2)).
Proof.
  destruct (llm_available (state w) && lock_available (state w)) eqn:Hav.
  - right.
    assert (Hmsgs : messages rq = [] ∨ messages rq ≠ [])
      by (destruct (messages rq); [by left | by right]).
    destruct Hmsgs as [Hmsg | Hne].
    + left. by rewrite (serve_no_messages e eng w rq Hav Hmsg).
    + right. apply andb_prop in Hav as [Hllm Hlock].
      unfold llm_available in Hllm.
      destruct (llm (state w)) as [[l|]|] eqn:Hl; try done.
      destruct (locked w) eqn:Hlk.
      * left. exists l. by rewrite (serve_held e eng w rq l).
      * right. exists l. by rewrite (serve_loaded e eng w rq l).
  - left. split; [done|].
    by destruct (serve_unavailable e eng w rq Hav) as (msg & _ & ->).
Qed.

End Outcomes.

(** The errors of the handler are few: an exception that leaves a request
    served alone is the 503 of a missing engine or lock, the 400 of an empty
    message list, the 500 of a result that is not a dict, or an exception
    of the engine itself that is an HTTPException or no [Exception] at all;
    every other failure of the engine or of the response building is kept
    inside. *)
Theorem handler_raises_only_known_errors e eng w rq x :
  (serve e eng w rq).2 = Finished (Raised x) →
  x = HTTPException 503 detail_no_llm ∨
  x = HTTPException 503 detail_no_lock ∨
  x = HTTPException 400 "Messages list cannot be empty." ∨
  x = HTTPException 500 "Invalid response structure from LLM." ∨
  ∃ l, llm (state w) = Some (Some l) ∧
       eng l (call_of rq) = inl x ∧
       (is_HTTPException x = true ∨ is_Exception x = false).
Proof.
  intros Hserve.
  destruct (serve_cases e eng w rq)
    as [[_ H] | [[_ H] | [(l & _ & _ & _ & H) | (l & Hl & _ & _ & H)]]];
    rewrite H in Hserve.
  - injection Hserve as <-. destruct (llm_available (state w)); auto.
  - injection Hserve as <-. auto.
  - done.
  - pose proof (after_inference_outcomes e (eng l (call_of rq))) as Hout.
    destruct (to_outcome _) as [r|y]; [done|]. injection Hserve as ->.
    destruct Hout as [[Heng Hkind] | [-> _]]; [|by auto].
    do 4 right. by exists l.
Qed.

Lemma handler_raises_only_known_errors_witness :
  HTTPException 500 "Invalid response structure from LLM." =
    HTTPException 503 detail_no_llm ∨
  HTTPException 500 "Invalid response structure from LLM." =
    HTTPException 503 detail_no_lock ∨
  HTTPException 500 "Invalid response structure from LLM." =
    HTTPException 400 "Messages list cannot be empty." ∨
  HTTPException 500 "Invalid response structure from LLM." =
    HTTPException 500 "Invalid response structure from LLM." ∨
  ∃ l, llm (state Samples.loaded) = Some (Some l) ∧
       (λ _ _, inr (PList [])) l (call_of Samples.hello) =
         inl (HTTPException 500 "Invalid response structure from LLM.") ∧
       (is_HTTPException (HTTPException 500 "Invalid response structure from LLM.") = true ∨
        is_Exception (HTTPException 500 "Invalid response structure from LLM.") = false).
Proof.
  apply (handler_raises_only_known_errors Samples.on_disk (λ _ _, inr (PList []))
           Samples.loaded Samples.hello).
  vm_compute. reflexivity.
Defined.

(** Every response the handler returns has the same frame: it comes from a
    dict the engine returned, it names the model by the file name of
    MODEL_PATH (or "unknown_model"), and it has exactly one choice, of
    index 0, however many choices the engine produced. *)
Theorem returned_response_has_one_choice e eng w rq resp :
  (serve e eng w rq).2 = Finished (Returned (Some resp)) →
  model resp = response_model_name e ∧
  (∃ ch, choices resp = [ch] ∧ index ch = 0) ∧
  ∃ l d, llm (state w) = Some (Some l) ∧ eng l (call_of rq) = inr (PDict d).
Proof.
  intros Hserve.
  destruct (serve_cases e eng w rq)
    as [[_ H] | [[_ H] | [(l & _ & _ & _ & H) | (l & Hl & _ & _ & H)]]];
    rewrite H in Hserve; try done.
  pose proof (after_inference_outcomes e (eng l (call_of rq))) as Hout.
  destruct (to_outcome _) as [[r|]|y]; try done. injection Hserve as ->.
  destruct Hout as ([d Hd] & Hmodel & Hchoice).
  do 2 (split; [done|]). by exists l, d.
Qed.

Lemma returned_response_has_one_choice_witness :
  model {| id := "chatcmpl-1700000000"; created := 1700000000;
           model := "mistral-7b-instruct-v0.1.Q4_K_M.gguf";
           choices := [{| index := 0;
                          message := {| out_role := "assistant"; out_content := "hi there" |};
                          finish_reason := "stop" |}] |} =
    response_model_name Samples.on_disk ∧
  (∃ ch, [{| index := 0;
             message := {| out_role := "assistant"; out_content := "hi there" |};
             finish_reason := "stop" |}] = [ch] ∧ index ch = 0) ∧
  ∃ l d, llm (state Samples.loaded) = Some (Some l) ∧
         Samples.canned l (call_of Samples.hello) = inr (PDict d).
Proof.
  apply (returned_response_has_one_choice Samples.on_disk Samples.canned
           Samples.loaded Samples.hello).
  vm_compute. reflexivity.
Defined.

(** ** Lifecycle and requests together *)

(** A stopped process refuses: after the shutdown, whatever the process
    was before, every completion request is answered with the 503 of the
    missing engine, the engine is not called although the lock is still
    stored, and the health query reports "warning". *)
Theorem stopped_process_refuses e eng w rq :
  let w' := lifespan_shutdown w in
  (serve e eng w' rq).2 = Finished (Raised (HTTPException 503 detail_no_llm)) ∧
  (∃ evs, trace (serve e eng w' rq).1 = trace w' ++ evs ∧
          count_events is_engine_call evs = 0%nat ∧
          count_events is_acquire evs = 0%nat) ∧
  (health_check_status e w').2 =
    PDict {[ "status" := PStr "warning";
             "model_loaded" := PBool false;
             "message" := PStr "LLM not loaded or failed to load. Check server logs.";
             "configured_model_path" := PStr (MODEL_PATH e) ]}.
Proof.
  intros w'.
  assert (Hun : llm_available (state w') = false) by apply shutdown_unavailable.
  clearbody w'.
  assert (Hboth : llm_available (state w') && lock_available (state w') = false)
    by by rewrite Hun.
  destruct (serve_unavailable e eng w' rq Hboth) as (msg & _ & ->).
  rewrite Hun. simpl. split; [done|]. split; [by eexists|].
  unfold health_check_status. simpl. by rewrite Hun.
Qed.

(** A started process is consistent: when the constructor fails only with
    ordinary exceptions, then after the startup the health query reports
    model_loaded exactly when the load succeeded, and a request with
    messages is in that case answered from the result of the engine built
    with the configured values, without waiting, and otherwise with the 503
    of the missing engine. *)
Theorem started_process_serves_or_refuses e eng llama_raises w rq :
  (∀ x, llama_raises = Some x → is_Exception x = true) →
  messages rq ≠ [] →
  let w' := (lifespan_startup e llama_raises w).1 in
  let l := {| model_path := MODEL_PATH e; n_gpu_layers := N_GPU_LAYERS e;
              n_ctx := N_CTX e; n_threads := N_THREADS e;
              verbose := VERBOSE_LLAMA e |} in
  getitem (health_check_status e w').2 (KStr "model_loaded") =
    inr (PBool (load_succeeds e llama_raises)) ∧
  (serve e eng w' rq).2 =
    if load_succeeds e llama_raises
    then Finished (to_outcome (after_inference e (eng l (call_of rq))).2)
    else Finished (Raised (HTTPException 503 detail_no_llm)).
Proof.
  intros Hexc Hmsg w' l.
  destruct (startup_state e llama_raises w Hexc) as (_ & Hst & Hlk).
  fold w' in Hst, Hlk. clearbody w'.
  destruct (load_succeeds e llama_raises) eqn:Hok.
  - split.
    + unfold health_check_status, llm_available. simpl. rewrite Hst. simpl.
      by simplify_map_eq.
    + rewrite (serve_loaded e eng w' rq l); [done | by rewrite Hst.. | by apply Hlk | done].
  - split.
    + unfold health_check_status, llm_available. simpl. rewrite Hst. simpl.
      by simplify_map_eq.
    + assert (Hboth : llm_available (state w') && lock_available (state w') = false)
        by by rewrite Hst.
      destruct (serve_unavailable e eng w' rq Hboth) as (msg & _ & ->).
      by rewrite Hst.
Qed.

Lemma started_process_serves_or_refuses_witness :
  let w' := (lifespan_startup Samples.on_disk (Some (RuntimeError "load")) Samples.boot).1 in
  getitem (health_check_status Samples.on_disk w').2 (KStr "model_loaded") =
    inr (PBool false) ∧
  (serve Samples.on_disk Samples.canned w' Samples.hello).2 =
    Finished (Raised (HTTPException 503 detail_no_llm)).
Proof.
  apply (started_process_serves_or_refuses Samples.on_disk Samples.canned
           (Some (RuntimeError "load")) Samples.boot Samples.hello).
  - intros x Hx. injection Hx as <-. reflexivity.
  - discriminate.
Defined.

(** ** The reported model name *)

Lemma append_cons c (a b : string) : String c a +:+ b = String c (a +:+ b).
Proof. done. Qed.

Lemma append_empty_r (a : string) : a +:+ "" = a.
Proof. induction a as [|c a IH]; [done|]. by rewrite append_cons, IH. Qed.

Lemma append_assoc' (a b c : string) : (a +:+ b) +:+ c = a +:+ (b +:+ c).
Proof. induction a as [|x a IH]; [done|]. by rewrite !append_cons, IH. Qed.

Lemma has_slash_app (a b : string) :
  has_slash (a +:+ b) = has_slash a || has_slash b.
Proof.
  induction a as [|c a IH]; [done|].
  rewrite append_cons. simpl. rewrite IH. apply orb_assoc.
Qed.

Lemma basename_from_no_slash p acc :
  has_slash acc = false → has_slash (basename_from acc p) = false.
Proof.
  revert acc. induction p as [|c p IH]; intros acc Hacc; [done|].
  simpl. destruct (Ascii.eqb c "/") eqn:Hc.
  - by apply IH.
  - apply IH. rewrite has_slash_app, Hacc. simpl. by rewrite Hc.
Qed.

Lemma basename_from_plain f acc :
  has_slash f = false → basename_from acc f = acc +:+ f.
Proof.
  revert acc. induction f as [|c f IH]; intros acc Hf.
  - by rewrite append_empty_r.
  - simpl in *. apply orb_false_elim in Hf as [Hc Hf]. rewrite Hc.
    rewrite (IH _ Hf), append_assoc'. done.
Qed.

Lemma basename_from_dir d acc f :
  basename_from acc (d +:+ "/" +:+ f) = basename_from "" f.
Proof.
  revert acc. induction d as [|c d IH]; intros acc; [done|].
  rewrite append_cons. simpl. by destruct (Ascii.eqb c "/").
Qed.

Lemma response_model_name_no_slash e :
  has_slash (response_model_name e) = false.
Proof.
  unfold response_model_name.
  destruct (str_truthy (MODEL_PATH e) && path_exists e (MODEL_PATH e)); [|done].
  by apply basename_from_no_slash.
Qed.

Lemma file_name_of_path e dir file :
  has_slash file = false →
  MODEL_PATH e = dir +:+ "/" +:+ file →
  path_exists e (MODEL_PATH e) = true →
  response_model_name e = file ∧ resolved_model_name e = file.
Proof.
  intros Hfile Hpath Hexists.
  assert (Htruthy : str_truthy (MODEL_PATH e) = true).
  { rewrite Hpath. by destruct dir. }
  assert (Hbase : basename (MODEL_PATH e) = file).
  { unfold basename. rewrite Hpath, basename_from_dir.
    by rewrite (basename_from_plain file "" Hfile). }
  unfold response_model_name, resolved_model_name.
  by rewrite Htruthy, Hexists, Hbase.
Qed.

(** The model named in a completion response is never a path: whatever
    MODEL_PATH is, the [model] field of a returned response contains no
    slash. *)
Theorem response_model_is_no_path e eng w rq resp :
  (serve e eng w rq).2 = Finished (Returned (Some resp)) →
  has_slash (model resp) = false.
Proof.
  intros Hserve.
  destruct (serve_cases e eng w rq)
    as [[_ H] | [[_ H] | [(l & _ & _ & _ & H) | (l & Hl & _ & _ & H)]]];
    rewrite H in Hserve; try done.
  pose proof (after_inference_outcomes e (eng l (call_of rq))) as Hout.
  destruct (to_outcome _) as [[r|]|y]; try done. injection Hserve as ->.
  destruct Hout as (_ & -> & _). apply response_model_name_no_slash.
Qed.

Lemma response_model_is_no_path_witness :
  has_slash "mistral-7b-instruct-v0.1.Q4_K_M.gguf" = false.
Proof.
  apply (response_model_is_no_path Samples.on_disk Samples.canned Samples.loaded
           Samples.hello
           {| id := "chatcmpl-1700000000"; created := 1700000000;
              model := "mistral-7b-instruct-v0.1.Q4_K_M.gguf";
              choices := [{| index := 0;
                             message := {| out_role := "assistant";
                                           out_content := "hi there" |};
                             finish_reason := "stop" |}] |}).
  vm_compute. reflexivity.
Defined.

(** When MODEL_PATH is a directory, a slash and a file name, and the file
    exists, both endpoints of a loaded process report the file name: the
    health query as "model_name" and every returned completion as its
    model. *)
Theorem model_name_is_file_name e dir file w :
  has_slash file = false →
  MODEL_PATH e = dir +:+ "/" +:+ file →
  path_exists e (MODEL_PATH e) = true →
  llm_available (state w) = true →
  getitem (health_check_status e w).2 (KStr "model_name") = inr (PStr file) ∧
  ∀ eng rq resp,
    (serve e eng w rq).2 = Finished (Returned (Some resp)) → model resp = file.
Proof.
  intros Hfile Hpath Hexists Hav.
  destruct (file_name_of_path e dir file Hfile Hpath Hexists) as [Hresp Hres].
  split.
  - unfold health_check_status. simpl. rewrite Hav. simpl.
    unfold resolved_model_name in Hres.
    assert (Htruthy : str_truthy (MODEL_PATH e) = true)
      by (rewrite Hpath; by destruct dir).
    rewrite Htruthy, Hexists in *. simpl. rewrite Hres. by simplify_map_eq.
  - intros eng rq resp Hserve.
    destruct (serve_cases e eng w rq)
      as [[_ H] | [[_ H] | [(l & _ & _ & _ & H) | (l & Hl & _ & _ & H)]]];
      rewrite H in Hserve; try done.
    pose proof (after_inference_outcomes e (eng l (call_of rq))) as Hout.
    destruct (to_outcome _) as [[r|]|y]; try done. injection Hserve as ->.
    destruct Hout as (_ & -> & _). done.
Qed.

Lemma model_name_is_file_name_witness :
  getitem (health_check_status Samples.on_disk Samples.loaded).2 (KStr "model_name") =
    inr (PStr "mistral-7b-instruct-v0.1.Q4_K_M.gguf") ∧
  ∀ eng rq resp,
    (serve Samples.on_disk eng Samples.loaded rq).2 = Finished (Returned (Some resp)) →
    model resp = "mistral-7b-instruct-v0.1.Q4_K_M.gguf".
Proof.
  apply (model_name_is_file_name Samples.on_disk "models"
           "mistral-7b-instruct-v0.1.Q4_K_M.gguf" Samples.loaded); reflexivity.
Defined.

(** ** The chat client, continued *)

Section ClientFrame.

Variable requests_post : string → Client.payload → Z → Client.post_result.

(** What a call after a new user turn leaves: one request carrying the
    history with that turn, and a history that is either rolled back or
    completed by the answer, unless an interruption escaped. *)
Lemma turn_effect c text temperature max_tokens :
  let r := Client.get_llm_response requests_post (Client.add_user_message text c)
             temperature max_tokens in
  Client.sent r =
    [{| Client.p_messages :=
          Client.conversation_history c ++
            [{| Client.role := "user"; Client.content := PStr text |}];
        Client.p_temperature := temperature;
        Client.p_max_tokens := max_tokens |}] ∧
  match Client.returned r with
  | inr _ =>
      Client.conversation_history (Client.client_after r) = Client.conversation_history c ∨
      ∃ v, Client.conversation_history (Client.client_after r) =
             Client.conversation_history c ++
               [{| Client.role := "user"; Client.content := PStr text |};
                {| Client.role := "assistant"; Client.content := v |}]
  | inl x => is_Exception x = false
  end.
Proof.
  intros r. subst r. unfold Client.get_llm_response.
  replace (Client.last_is_user
             (Client.conversation_history (Client.add_user_message text c)))
    with true by (symmetry; apply last_is_user_snoc).
  simpl negb. cbv iota.
  match goal with |- context [Client.fetch_content _ ?pl ?c1] =>
    destruct (Client.fetch_content requests_post pl c1) as [x|v] end.
  - destruct (is_lookup_error x || is_Exception x) eqn:Hcaught.
    + assert (Hrev := revert_after_add text c).
      destruct (is_lookup_error x); simpl in *; [by eauto|].
      rewrite Hcaught. simpl. by eauto.
    + apply orb_false_elim in Hcaught as [Hl Hx]. rewrite Hl, Hx. simpl. done.
  - simpl. split; [done|]. right. exists v. by rewrite <- app_assoc.
Qed.

End ClientFrame.

(** A call of [get_llm_response], whatever the history and the gateway,
    keeps the address and the timeout of the client, sends at most one
    request, and touches the history at its end only: the history is left
    as it is, or loses its last message, which is then a user message, or
    gains one assistant message. *)
Theorem get_llm_response_touches_only_the_end requests_post c temperature max_tokens :
  let r := Client.get_llm_response requests_post c temperature max_tokens in
  let h := Client.conversation_history c in
  let h' := Client.conversation_history (Client.client_after r) in
  Client.service_url (Client.client_after r) = Client.service_url c ∧
  Client.request_timeout (Client.client_after r) = Client.request_timeout c ∧
  (length (Client.sent r) ≤ 1)%nat ∧
  (h' = h ∨
   (∃ text, h = h' ++ [{| Client.role := "user"; Client.content := text |}]) ∨
   (∃ v, h' = h ++ [{| Client.role := "assistant"; Client.content := v |}])).
Proof.
  intros r h h'. subst r h h'. unfold Client.get_llm_response.
  assert (Hrevert :
    Client.service_url (Client._revert_last_user_message c) = Client.service_url c ∧
    Client.request_timeout (Client._revert_last_user_message c) = Client.request_timeout c ∧
    (Client.conversation_history (Client._revert_last_user_message c) =
       Client.conversation_history c ∨
     ∃ text, Client.conversation_history c =
               Client.conversation_history (Client._revert_last_user_message c) ++
                 [{| Client.role := "user"; Client.content := text |}])).
  { unfold Client._revert_last_user_message, Client.last_is_user.
    destruct (last (Client.conversation_history c)) as [m|] eqn:Hlast; [|by auto].
    destruct (String.eqb (Client.role m) "user") eqn:Hrole; [|by auto].
    simpl. do 2 (split; [done|]). right.
    apply last_Some in Hlast as [h0 ->]. apply String.eqb_eq in Hrole.
    exists (Client.content m). rewrite removelast_last.
    destruct m as [ro co]. simpl in *. by subst ro. }
  destruct (Client.last_is_user (Client.conversation_history c)); simpl;
    [|by auto 6].
  match goal with |- context [Client.fetch_content _ ?pl ?c1] =>
    destruct (Client.fetch_content requests_post pl c1) as [x|v] end.
  - destruct Hrevert as (Hurl & Htime & Hhist).
    destruct (is_lookup_error x); simpl;
      [|destruct (is_Exception x); simpl];
      repeat split; auto; destruct Hhist; auto.
  - simpl. repeat split; auto. right. right. by exists v.
Qed.

(** ** The chat loop *)

Lemma exchanges_app h t :
  exchanges h = true → exchanges (h ++ t) = exchanges t.
Proof.
  assert (Hlen : ∀ n h, (length h ≤ n)%nat →
            exchanges h = true → exchanges (h ++ t) = exchanges t).
  { clear h. induction n as [|n IH]; intros h Hn Hex.
    - destruct h; [done | simpl in Hn; lia].
    - destruct h as [|u [|a r]]; [done | done |].
      simpl in *. apply andb_prop in Hex as [Hroles Hr].
      rewrite Hroles. simpl. apply IH; [lia | done]. }
  by apply (Hlen (length h)).
Qed.

Lemma dialogue_turn h text v :
  dialogue h = true →
  dialogue (h ++ [{| Client.role := "user"; Client.content := PStr text |};
                  {| Client.role := "assistant"; Client.content := v |}]) = true.
Proof.
  destruct h as [|m r]; [done|]. unfold dialogue.
  rewrite <- app_comm_cons.
  destruct (String.eqb (Client.role m) "system"); intros Hex.
  - by rewrite exchanges_app.
  - by rewrite app_comm_cons, exchanges_app.
Qed.

Lemma dialogue_fresh (prompt : option string) :
  dialogue match prompt with
           | Some p =>
               if str_truthy p
               then [{| Client.role := "system"; Client.content := PStr p |}] else []
           | None => []
           end = true.
Proof. destruct prompt as [p|]; [|done]. by destruct (str_truthy p). Qed.

Section LoopFacts.

Variable strip : string → string.
Variable lower : string → string.
Variable float : string → option Chat.pyfloat.
Variable int : string → option Z.
Variable requests_post : nat → string → Client.payload → Z → Client.post_result.
Variable config : Chat.ClientConfig.

Lemma settled_say o s : settled config s → settled config (Chat.say o s).
Proof. done. Qed.

Lemma settled_set_temp line s :
  settled config s → settled config (Chat.set_temp float line s).
Proof.
  intros Hs. unfold Chat.set_temp.
  destruct (Chat.after_first_space line) as [arg|]; [|done].
  destruct (float arg) as [[q|]|]; [|done..].
  destruct (Qle_bool 0 q && Qle_bool q 2) eqn:Hq; [|done].
  apply andb_prop in Hq as [Hlo Hhi].
  apply Qle_bool_iff in Hlo, Hhi.
  destruct Hs as (Hd & [_ Htok] & Hp). split; [done|]. split; [|done].
  split; [by right | done].
Qed.

Lemma settled_set_tokens line s :
  settled config s → settled config (Chat.set_tokens int line s).
Proof.
  intros Hs. unfold Chat.set_tokens.
  destruct (Chat.after_first_space line) as [arg|]; [|done].
  destruct (int arg) as [n|]; [|done].
  destruct (0 <? n) eqn:Hn; [|done]. apply Z.ltb_lt in Hn.
  destruct Hs as (Hd & [Htemp _] & Hp). split; [done|]. split; [|done].
  split; [done | by right].
Qed.

Lemma settled_clear answer s :
  settled config s → settled config (Chat.clear config answer s).
Proof.
  intros (_ & _ & Hp). split; [apply dialogue_fresh|]. split; [|done].
  split; by left.
Qed.

(** A chat turn posts one well-posed request; it ends settled, or with an
    interruption that is no [Exception]. *)
Lemma chat_turn_settled line s :
  settled config s →
  let r := Chat.chat_turn requests_post config line s in
  Forall (well_posed config) (Chat.posted r.1) ∧
  match r.2 with
  | Some x => is_Exception x = false
  | None => settled config r.1
  end.
Proof.
  intros (Hd & Hrange & Hp) r. subst r. unfold Chat.chat_turn.
  destruct (turn_effect (requests_post (length (Chat.posted s))) (Chat.client s) line
              (default (Chat.temperature (Chat.generation_params config))
                 (Chat.current_turn_temp s))
              (default (Chat.max_tokens (Chat.generation_params config))
                 (Chat.current_turn_tokens s))) as [Hsent Hret].
  assert (Hposted : Forall (well_posed config)
            (Chat.posted s ++ Client.sent
               (Client.get_llm_response (requests_post (length (Chat.posted s)))
                  (Client.add_user_message line (Chat.client s))
                  (default (Chat.temperature (Chat.generation_params config))
                     (Chat.current_turn_temp s))
                  (default (Chat.max_tokens (Chat.generation_params config))
                     (Chat.current_turn_tokens s))))).
  { rewrite Hsent. apply Forall_app. split; [done|].
    apply Forall_singleton. split; [|done]. by exists (Client.conversation_history
      (Chat.client s)), line. }
  destruct (Client.returned _) as [x|v]; simpl; [done|].
  split; [done|]. split; [|split; [split; by left | done]].
  simpl. destruct Hret as [-> | [v' ->]]; [done | by apply dialogue_turn].
Qed.

Lemma chat_loop_settled stdin s :
  settled config s →
  let r := Chat.chat_loop strip lower float int requests_post config stdin s in
  Forall (well_posed config) (Chat.posted r.1) ∧
  match r.2 with
  | Chat.RequestEscaped x => is_Exception x = false
  | _ => dialogue (Client.conversation_history (Chat.client r.1)) = true
  end.
Proof.
  assert (Hlen : ∀ n stdin s, (length stdin ≤ n)%nat → settled config s →
    Forall (well_posed config)
      (Chat.posted (Chat.chat_loop strip lower float int requests_post config stdin s).1) ∧
    match (Chat.chat_loop strip lower float int requests_post config stdin s).2 with
    | Chat.RequestEscaped x => is_Exception x = false
    | _ => dialogue (Client.conversation_history (Chat.client
             (Chat.chat_loop strip lower float int requests_post config stdin s).1)) = true
    end).
  { clear stdin s. induction n as [|n IH]; intros stdin s Hn Hs.
    - destruct stdin; [|simpl in Hn; lia]. simpl. by destruct Hs as (? & ? & ?).
    - destruct stdin as [|[line|] rest]; simpl;
        [by destruct Hs as (? & ? & ?) | | by destruct Hs as (? & ? & ?)].
      simpl in Hn.
      destruct (negb (str_truthy (strip line))); [apply IH; [lia | done]|].
      destruct (String.eqb (lower (strip line)) "/exit");
        [simpl; by destruct Hs as (? & ? & ?)|].
      destruct (String.eqb (lower (strip line)) "/history");
        [apply IH; [lia | by apply settled_say]|].
      destruct (String.eqb (lower (strip line)) "/clear").
      { destruct rest as [|[answer|] rest']; simpl;
          [by destruct Hs as (? & ? & ?) | | by destruct Hs as (? & ? & ?)].
        simpl in Hn. apply IH; [lia | by apply settled_clear]. }
      destruct (String.prefix "/temp " (lower (strip line)));
        [apply IH; [lia | by apply settled_set_temp]|].
      destruct (String.prefix "/tokens " (lower (strip line)));
        [apply IH; [lia | by apply settled_set_tokens]|].
      pose proof (chat_turn_settled (strip line) s Hs) as [Hposted Hend].
      destruct (Chat.chat_turn requests_post config (strip line) s) as [s' [x|]];
        simpl in *; [done|].
      apply IH; [lia | done]. }
  intros Hs. by apply (Hlen (length stdin)).
Qed.

End LoopFacts.

(** Between turns the history of the chat is always a settled conversation:
    whatever is typed, whatever the gateway does and however the loop is
    left at a prompt, the history is an optional system message followed by
    complete exchanges, a user message and its answer.  A failed turn
    leaves no trace, and a cleared history starts again. *)
Theorem chat_history_is_a_dialogue strip lower float int requests_post config stdin :
  match Chat.run_chat_loop strip lower float int requests_post config stdin with
  | (Some s, Chat.RequestEscaped _) => True
  | (Some s, _) => dialogue (Client.conversation_history (Chat.client s)) = true
  | (None, _) => True
  end.
Proof.
  unfold Chat.run_chat_loop. destruct stdin as [|[answer|] rest]; [done| |done].
  match goal with |- context [Chat.chat_loop _ _ _ _ _ _ _ ?s0] =>
    pose proof (chat_loop_settled strip lower float int requests_post config rest s0)
      as Hloop end.
  simpl in Hloop. destruct Hloop as [_ Hend].
  { split; [apply dialogue_fresh|]. split; [split; by left | done]. }
  destruct (Chat.chat_loop _ _ _ _ _ _ _ _) as [s []]; done.
Qed.

(** Every request the chat loop posts is well posed: its messages are a
    settled conversation followed by the user message to answer, its
    temperature is the configured one or lies between 0 and 2, and its
    max_tokens is the configured one or positive. *)
Theorem chat_requests_are_well_posed strip lower float int requests_post config stdin :
  match Chat.run_chat_loop strip lower float int requests_post config stdin with
  | (Some s, _) => Forall (well_posed config) (Chat.posted s)
  | (None, _) => True
  end.
Proof.
  unfold Chat.run_chat_loop. destruct stdin as [|[answer|] rest]; [done| |done].
  match goal with |- context [Chat.chat_loop _ _ _ _ _ _ _ ?s0] =>
    pose proof (chat_loop_settled strip lower float int requests_post config rest s0)
      as Hloop end.
  simpl in Hloop. destruct Hloop as [Hposted _].
  { split; [apply dialogue_fresh|]. split; [split; by left | done]. }
  destruct (Chat.chat_loop _ _ _ _ _ _ _ _) as [s []]; done.
Qed.

(** A failing gateway never ends the chat: the loop is left by a request
    only through an interruption that is no [Exception]; every ordinary
    failure of the request is turned into an error text and the loop goes
    on. *)
Theorem chat_survives_gateway_failures strip lower float int requests_post config stdin :
  match Chat.run_chat_loop strip lower float int requests_post config stdin with
  | (_, Chat.RequestEscaped x) => is_Exception x = false
  | _ => True
  end.
Proof.
  unfold Chat.run_chat_loop. destruct stdin as [|[answer|] rest]; [done| |done].
  match goal with |- context [Chat.chat_loop _ _ _ _ _ _ _ ?s0] =>
    pose proof (chat_loop_settled strip lower float int requests_post config rest s0)
      as Hloop end.
  simpl in Hloop. destruct Hloop as [_ Hend].
  { split; [apply dialogue_fresh|]. split; [split; by left | done]. }
  destruct (Chat.chat_loop _ _ _ _ _ _ _ _) as [s []]; done.
Qed.

(** A session: a blank line, a temperature for the next turn, a question
    that meets a gateway that is down, the question again, and the exit.
    The failed turn is rolled back, the override is spent by the first
    request, and the second request carries the configured temperature. *)
Example chat_session_with_a_failed_turn :
  let run := Chat.run_chat_loop (λ s, s) (λ s, s) (λ _, Some (Chat.Finite (1 # 2)%Q)) (λ _, Some 64)
               ChatSamples.recovering ChatSamples.chat_config
               [Chat.Typed ""; Chat.Typed ""; Chat.Typed "/temp 0.5";
                Chat.Typed "What does AI stand for?";
                Chat.Typed "What does AI stand for?"; Chat.Typed "/exit"] in
  run.2 = Chat.Broke ∧
  (Chat.client <$> run.1) ≫= (λ c, Some (Client.conversation_history c)) =
    Some [{| Client.role := "user"; Client.content := PStr "What does AI stand for?" |};
          {| Client.role := "assistant"; Client.content := PStr "Artificial Intelligence." |}] ∧
  (Chat.posted <$> run.1) ≫= (λ ps, Some (Client.p_temperature <$> ps)) =
    Some [(1 # 2)%Q; (7 # 10)%Q].
Proof. vm_compute. repeat split; reflexivity. Qed.

(** ** Failures as the caller sees them *)

Section Failures.

Variable e : env.
Variable eng : Llama → blocking_task → exn + pyval.

Lemma logs_bind {A B} (P : event → Prop) (m : M A) (f : A → M B) :
  Forall P m.1 → (∀ a, Forall P (f a).1) → Forall P (m ≫= f).1.
Proof.
  intros Hm Hf. unfold mbind, M_bind. destruct m as [tr [x|a]]; simpl in *; [done|].
  specialize (Hf a). destruct (f a) as [tr' r]. simpl in *.
  apply Forall_app. by split.
Qed.

(** Building the response logs at level INFO only. *)
Lemma build_response_info v :
  Forall (λ ev, ∃ msg, ev = Log INFO msg) (build_response e v).1.
Proof.
  unfold build_response, new_ChatCompletionResponse, new_ChatCompletionChoice,
    new_ChatMessageOutput.
  repeat first
    [ apply logs_bind; [|intros ?]
    | by apply Forall_nil_2
    | by (unfold logger; simpl; constructor; [by eexists | constructor]) ].
Qed.

Lemma no_failure_among_info tr :
  Forall (λ ev, ∃ msg, ev = Log INFO msg) tr →
  count_events is_failure_log tr = 0%nat.
Proof.
  induction 1 as [|ev tr [msg ->] _ IH]; [done|].
  unfold count_events in *. rewrite filter_cons. simpl.
  repeat case_decide; done.
Qed.

(** A response is built only from a dict of the expected structure. *)
Lemma build_response_needs_expected d resp :
  (build_response e (PDict d)).2 = inr resp → ∃ fc m, expected_result d fc m.
Proof.
  unfold build_response. simpl.
  destruct (d !! "choices") as [ch|] eqn:Hch; simpl; [|done].
  destruct ch as [| | | |s|l|d']; simpl; try done.
  { destruct s; simpl; done. }
  destruct l as [|fst rest]; simpl; [done|].
  unfold seq_index. simpl.
  destruct fst as [| | | |s|l'|fc]; simpl; try done.
  destruct (fc !! "message") as [msg|] eqn:Hmsg; simpl; [|done].
  destruct msg as [| | | |s|l'|m]; simpl; try done.
  intros Hbuilt. exists fc, m. unfold expected_result.
  split; [by exists rest|]. split; [done|].
  unfold text_if_present, int_if_present. revert Hbuilt.
  destruct (m !! "role") as [[]|]; simpl; try done;
  destruct (m !! "content") as [[]|]; simpl; try done;
  destruct (fc !! "finish_reason") as [[]|]; simpl; try done;
  destruct (d !! "id") as [[]|]; simpl; try done;
  destruct (d !! "created") as [[]|]; simpl; done.
Qed.

(** After an unexpected result the caller gets 500 and exactly one record
    of level ERROR is logged. *)
Lemma after_inference_unexpected result :
  unexpected result →
  http_status (to_outcome (after_inference e result).2) = Some 500 ∧
  count_events is_failure_log (after_inference e result).1 = 1%nat.
Proof.
  destruct result as [x|v].
  - intros [Hx Hh]. by rewrite after_inference_engine_raises, Hh, Hx.
  - destruct (is_dict v) eqn:Hv.
    + destruct v; try done. intros Hshape.
      pose proof (build_response_yields e (PDict d)) as Hy.
      pose proof (build_response_info (PDict d)) as Hinfo.
      pose proof (build_response_needs_expected d) as Hneeds.
      unfold yields in Hy. unfold after_inference, try_except. simpl.
      destruct (build_response e (PDict d)) as [tr [x|resp]]; simpl in *.
      * destruct Hy as [Hx Hh]. rewrite Hh, Hx. simpl. split; [done|].
        change (Log INFO "LLM processing completed." :: tr ++
                [Log EXCEPTION "An unexpected error occurred during chat completion: "])
          with ([Log INFO "LLM processing completed."] ++ tr ++
                [Log EXCEPTION "An unexpected error occurred during chat completion: "]).
        rewrite !count_events_app, (no_failure_among_info tr Hinfo). done.
      * destruct Hshape. by apply (Hneeds resp).
    + intros _. by rewrite (after_inference_not_a_dict e v Hv).
Qed.

End Failures.

(** C3: when the engine's result is not the expected structured result (a
    value that is no dict, or a dict of another structure) or the engine
    call fails with an ordinary exception, the request that reached the
    engine is finished, the caller receives the status 500, exactly one
    record of level ERROR (with the traceback in the exception case) is
    logged, and the lock is free again. *)
Theorem unexpected_result_is_500 e eng w rq l :
  llm (state w) = Some (Some l) →
  lock_available (state w) = true →
  locked w = false →
  messages rq ≠ [] →
  unexpected (eng l (call_of rq)) →
  ∃ o evs,
    (serve e eng w rq).2 = Finished o ∧
    http_status o = Some 500 ∧
    trace (serve e eng w rq).1 = trace w ++ evs ∧
    count_events is_failure_log evs = 1%nat ∧
    locked (serve e eng w rq).1 = false.
Proof.
  intros Hl Hlock Hfree Hmsg Hun.
  rewrite (serve_loaded e eng w rq l Hl Hlock Hfree Hmsg).
  destruct (after_inference_unexpected e _ Hun) as [Hstatus Hlogged].
  eexists _, _. cbn [fst snd trace locked].
  split; [done|]. split; [exact Hstatus|]. split; [done|]. split; [|done].
  rewrite !count_events_app, Hlogged. done.
Qed.

(** An engine that raises during generation, and an engine that returns a
    dict without "choices". *)
Lemma unexpected_result_is_500_witness :
  (∃ o evs,
     (serve Samples.on_disk Samples.broken Samples.loaded Samples.hello).2 = Finished o ∧
     http_status o = Some 500 ∧
     trace (serve Samples.on_disk Samples.broken Samples.loaded Samples.hello).1 =
       trace Samples.loaded ++ evs ∧
     count_events is_failure_log evs = 1%nat ∧
     locked (serve Samples.on_disk Samples.broken Samples.loaded Samples.hello).1 = false) ∧
  (∃ o evs,
     (serve Samples.on_disk Samples.shapeless Samples.loaded Samples.hello).2 = Finished o ∧
     http_status o = Some 500 ∧
     trace (serve Samples.on_disk Samples.shapeless Samples.loaded Samples.hello).1 =
       trace Samples.loaded ++ evs ∧
     count_events is_failure_log evs = 1%nat ∧
     locked (serve Samples.on_disk Samples.shapeless Samples.loaded Samples.hello).1 = false).
Proof.
  split.
  - apply (unexpected_result_is_500 Samples.on_disk Samples.broken Samples.loaded
             Samples.hello Samples.engine).
    + reflexivity.
    + reflexivity.
    + reflexivity.
    + discriminate.
    + split; reflexivity.
  - apply (unexpected_result_is_500 Samples.on_disk Samples.shapeless Samples.loaded
             Samples.hello Samples.engine).
    + reflexivity.
    + reflexivity.
    + reflexivity.
    + discriminate.
    + simpl. intros (fc & m & [rest Hchoices] & _). discriminate Hchoices.
Defined.
